(** * get_mag_toc.py: table-of-contents extraction for magazine PDFs

    A shallow embedding of [src/get_mag_toc.py] and the properties of its
    parser, deduplicator, orchestrator and plain-text formatter.

    Conventions of the embedding.
    - A Python [str] is a list of Unicode code points ([N]); literals of the
      source are written [u "..."] when they are ASCII and by code point
      otherwise.
    - The Unicode tables Python consults are written out where they are
      small (white space, line boundaries) and restricted to ASCII where
      they are not: [\d] is [0-9], [\w] is [A-Za-z0-9_], and
      [upper]/[lower] and case-insensitive matching fold [A-Z]/[a-z] only.
    - [eprint] writes to stderr and has no influence on any result; it is
      left out, as are [format_json] and the writing of the output.
    - The external tools are an environment ([World]): which of them are
      installed and what each run yields, a result or an exception.
    - A compiled regular expression is a term of [re]; matching follows the
      backtracking order of Python's [re] module (alternatives left to
      right, greedy before lazy), so the captured groups are the ones
      Python reports. *)

From Stdlib Require Import String Ascii DecimalString.
From Stdlib Require Import List ZArith NArith Lia Bool Arith.
From Stdlib Require Import Sorted Permutation.
Import ListNotations.

Local Open Scope list_scope.

Set Implicit Arguments.

(* ================================================================= *)
(** ** Python strings *)

Definition char := N.
Definition str := list char.

(** An ASCII literal as a [str]. *)
Definition u (s : string) : str := map N_of_ascii (list_ascii_of_string s).
Arguments u s%_string.

Fixpoint str_eqb (a b : str) : bool :=
  match a, b with
  | [], [] => true
  | x :: a', y :: b' => N.eqb x y && str_eqb a' b'
  | _, _ => false
  end.

Definition in_range (lo hi c : N) : bool := N.leb lo c && N.leb c hi.

Definition is_upper_az (c : char) : bool := in_range 65 90 c.
Definition is_lower_az (c : char) : bool := in_range 97 122 c.
Definition is_alpha_az (c : char) : bool := is_upper_az c || is_lower_az c.
Definition is_digit (c : char) : bool := in_range 48 57 c.
Definition is_word (c : char) : bool :=
  is_alpha_az c || is_digit c || N.eqb c 95.

(** [str.isspace] for one code point, which is also the class [\s]. *)
Definition isspace (c : char) : bool :=
  in_range 9 13 c || in_range 28 32 c || N.eqb c 133 || N.eqb c 160
  || N.eqb c 5760 || in_range 8192 8202 c || N.eqb c 8232 || N.eqb c 8233
  || N.eqb c 8239 || N.eqb c 8287 || N.eqb c 12288.

Definition upper_char (c : char) : char :=
  if is_lower_az c then (c - 32)%N else c.
Definition lower_char (c : char) : char :=
  if is_upper_az c then (c + 32)%N else c.

Definition upper (s : str) : str := map upper_char s.
Definition lower (s : str) : str := map lower_char s.

Fixpoint lstrip (s : str) : str :=
  match s with
  | c :: t => if isspace c then lstrip t else s
  | [] => []
  end.
Definition rstrip (s : str) : str := rev (lstrip (rev s)).
Definition strip (s : str) : str := rstrip (lstrip s).

Fixpoint startswith (s k : str) : bool :=
  match k, s with
  | [], _ => true
  | y :: k', x :: s' => N.eqb x y && startswith s' k'
  | _ :: _, [] => false
  end.

(** [sub in s] *)
Fixpoint contains (sub s : str) : bool :=
  startswith s sub ||
  match s with
  | [] => false
  | _ :: t => contains sub t
  end.

(** [s.find(sub)], [-1] when absent. *)
Fixpoint find_from (sub s : str) (i : Z) : Z :=
  if startswith s sub then i
  else match s with
       | [] => (-1)%Z
       | _ :: t => find_from sub t (i + 1)%Z
       end.
Definition find (s sub : str) : Z := find_from sub s 0%Z.

(** [s[start:]] for [0 <= start]. *)
Definition slice_from (s : str) (start : Z) : str := skipn (Z.to_nat start) s.
(** [s[:stop]] for [0 <= stop]. *)
Definition slice_to (s : str) (stop : nat) : str := firstn stop s.

(** The line boundaries of [str.splitlines], CR LF apart. *)
Definition is_linebreak (c : char) : bool :=
  in_range 10 13 c || in_range 28 30 c || N.eqb c 133
  || N.eqb c 8232 || N.eqb c 8233.

Fixpoint splitlines_acc (s : str) (cur : str) : list str :=
  match s with
  | [] => match cur with [] => [] | _ => [rev cur] end
  | c :: t =>
      if is_linebreak c then
        rev cur ::
        match t with
        | c2 :: t2 =>
            if N.eqb c 13 && N.eqb c2 10 then splitlines_acc t2 []
            else splitlines_acc t []
        | [] => splitlines_acc t []
        end
      else splitlines_acc t (c :: cur)
  end.
Definition splitlines (s : str) : list str := splitlines_acc s [].

(** [sep.join(parts)] *)
Fixpoint join (sep : str) (parts : list str) : str :=
  match parts with
  | [] => []
  | [p] => p
  | p :: rest => p ++ sep ++ join sep rest
  end.

(** [int(s)] for a run of ASCII digits. *)
Definition int_of (s : str) : Z :=
  fold_left (fun acc c => (10 * acc + Z.of_N (c - 48))%Z) s 0%Z.

(** [str(n)] for an [int]. *)
Definition str_of_int (n : Z) : str := u (NilZero.string_of_int (Z.to_int n)).

Definition NL : str := [10%N].
Definition EM_DASH : char := 8212%N.

(* ================================================================= *)
(** ** Regular expressions ([re]) *)

(** The constructs the program's patterns use.  [Rep g lo hi a] is
    [a{lo,hi}], greedy when [g] and lazy ([...?]) otherwise; [Grp n a] is a
    capturing group, named or numbered. *)
Inductive re : Type :=
| Eps : re
| Chr : (char -> bool) -> re
| Seq : re -> re -> re
| Alt : re -> re -> re
| Rep : bool -> nat -> option nat -> re -> re
| Grp : string -> re -> re
| Bol : re
| Eol : re
| Wordb : re.
Arguments Grp n%_string a.

(** A position in the subject: what was consumed (latest first), what is
    left, and the groups captured so far. *)
Record mstate : Type := MState {
  seen : str;
  rest : str;
  caps : list (string * str)
}.

Definition consume (c : char) (t : str) (st : mstate) : mstate :=
  MState (c :: seen st) t (caps st).

Definition capture (n : string) (from to : mstate) : mstate :=
  let len := length (seen to) - length (seen from) in
  MState (seen to) (rest to) ((n, rev (firstn len (seen to))) :: caps to).

Definition at_eol (st : mstate) : bool :=
  match rest st with
  | [] => true
  | [c] => N.eqb c 10
  | _ => false
  end.

Definition at_bol (st : mstate) : bool :=
  match seen st with [] => true | _ => false end.

Definition at_wordb (st : mstate) : bool :=
  let before := match seen st with c :: _ => is_word c | [] => false end in
  let after := match rest st with c :: _ => is_word c | [] => false end in
  xorb before after.

Definition orelse {A} (a : option A) (b : unit -> option A) : option A :=
  match a with
  | Some x => Some x
  | None => b tt
  end.

Definition below (n : nat) (hi : option nat) : bool :=
  match hi with
  | None => true
  | Some h => n <? h
  end.

(** Backtracking matcher in continuation-passing style: [go r k st] is the
    first success, in Python's priority order, of matching [r] at [st] and
    then [k].  A repetition stops when an iteration consumes nothing, so
    the number of iterations is bounded by the length of the rest. *)
Fixpoint go (r : re) (k : mstate -> option mstate) (st : mstate)
  {struct r} : option mstate :=
  match r with
  | Eps => k st
  | Chr p =>
      match rest st with
      | c :: t => if p c then k (consume c t st) else None
      | [] => None
      end
  | Seq a b => go a (go b k) st
  | Alt a b => orelse (go a k st) (fun _ => go b k st)
  | Rep g lo hi a =>
      (fix loop (fuel n : nat) (st : mstate) {struct fuel} : option mstate :=
         let stop := fun _ : unit => if lo <=? n then k st else None in
         let more := fun _ : unit =>
           match fuel with
           | O => None
           | S f =>
               if below n hi then
                 go a (fun st' =>
                         if length (rest st') <? length (rest st)
                         then loop f (S n) st' else None) st
               else None
           end in
         if g then orelse (more tt) stop else orelse (stop tt) more)
        (length (rest st)) 0 st
  | Grp n a => go a (fun st' => k (capture n st st')) st
  | Bol => if at_bol st then k st else None
  | Eol => if at_eol st then k st else None
  | Wordb => if at_wordb st then k st else None
  end.

(** [pattern.match(s)]: a match at the start of [s]. *)
Definition re_match (r : re) (s : str) : option mstate :=
  go r (@Some _) (MState [] s []).

(** [pattern.search(s)]: the leftmost match, with where it starts. *)
Fixpoint search_from (r : re) (sn rs : str) : option (nat * mstate) :=
  match go r (@Some _) (MState sn rs []) with
  | Some m => Some (length sn, m)
  | None =>
      match rs with
      | [] => None
      | c :: t => search_from r (c :: sn) t
      end
  end.
Definition re_search (r : re) (s : str) : option (nat * mstate) :=
  search_from r [] s.

Definition is_some {A} (o : option A) : bool :=
  match o with Some _ => true | None => false end.

(** [re.findall]: successive matches, each search resuming where the
    previous match ended (one further on after an empty match). *)
Fixpoint findall_from (fuel : nat) (r : re) (sn rs : str) : list mstate :=
  match fuel with
  | O => []
  | S f =>
      match search_from r sn rs with
      | None => []
      | Some (_, m) =>
          m ::
          (if length (rest m) <? length rs then findall_from f r (seen m) (rest m)
           else match rest m with
                | [] => []
                | c :: t => findall_from f r (c :: seen m) t
                end)
      end
  end.
Definition findall (r : re) (s : str) : list mstate :=
  findall_from (S (length s)) r [] s.

(** [m.group(n)]; the empty string for a group that took no part. *)
Fixpoint lookup_group (n : string) (cs : list (string * str)) : str :=
  match cs with
  | [] => []
  | (n', v) :: t => if String.eqb n n' then v else lookup_group n t
  end.
Definition group (m : mstate) (n : string) : str := lookup_group n (caps m).
Arguments group m n%_string.

(** *** Pattern syntax *)

Definition chr (c : char) : re := Chr (N.eqb c).
(** a literal character under [re.I] *)
Definition chr_i (c : char) : re := Chr (fun x => N.eqb (lower_char x) (lower_char c)).
Arguments chr c%_N.
Arguments chr_i c%_N.
Definition seqs (rs : list re) : re := fold_right Seq Eps rs.
Definition alts (rs : list re) : re :=
  match rs with
  | [] => Eps
  | r :: t => fold_left Alt t r
  end.
Definition lit (s : string) : re := seqs (map chr (u s)).
Definition lit_i (s : string) : re := seqs (map chr_i (u s)).
Arguments lit s%_string.
Arguments lit_i s%_string.

Definition star (a : re) : re := Rep true 0 None a.
Definition plus (a : re) : re := Rep true 1 None a.
Definition plus_lazy (a : re) : re := Rep false 1 None a.
Definition opt (a : re) : re := Rep true 0 (Some 1) a.
Definition at_least (n : nat) (a : re) : re := Rep true n None a.
Definition between (lo hi : nat) (a : re) : re := Rep true lo (Some hi) a.

Definition one_of (s : string) (c : char) : bool := existsb (N.eqb c) (u s).
Arguments one_of s%_string c.
Definition dot : re := Chr (fun c => negb (N.eqb c 10)).
Definition ws : re := Chr isspace.
Definition digit : re := Chr is_digit.
Definition digits_1_3 : re := between 1 3 digit.

(* ================================================================= *)
(** ** Data *)

Record TocItem : Type := mkTocItem {
  page : option Z;
  title : str;
  section : option str;
  author : option str
}.

Definition NY_SECTIONS : list str := [
  u "THE TALK OF THE TOWN"; u "PERSONAL HISTORY"; u "TAKES"; u "SHOUTS & MURMURS";
  u "ANNALS OF ARTIFICIAL INTELLIGENCE"; u "A REPORTER AT LARGE"; u "PROFILES"; u "FICTION";
  u "THE CRITICS"; u "BOOKS"; u "THE CURRENT CINEMA"; u "THE THEATRE"; u "POEMS"; u "GOINGS ON";
  u "COVER"; u "CONTRIBUTORS"; u "TABLES FOR TWO"; u "MUSICAL EVENTS"; u "ON AND OFF THE MENU"; u "THE MAIL"
].
Definition ATL_SECTIONS : list str := [
  u "FEATURES"; u "DISPATCHES"; u "IDEAS"; u "CULTURE"; u "POLITICS"; u "SCIENCE";
  u "TECHNOLOGY"; u "BUSINESS"; u "BOOKS"; u "REVIEW"; u "ESSAYS"; u "VOICES"; u "CORRESPONDENCE"
].
Definition HARPERS_SECTIONS : list str := [
  u "READINGS"; u "ESSAY"; u "REPORT"; u "NOTEBOOK"; u "LETTER"; u "LETTERS"; u "REVIEWS"; u "REVIEW";
  u "POEM"; u "POETRY"; u "FICTION"; u "ART"; u "ARTS & LETTERS"; u "ANNOTATIONS"; u "DEPARTMENTS"
].

(** U+2019, the right single quotation mark of [HARPER’S INDEX]. *)
Definition RSQUO : char := 8217%N.

Definition NOISE_UPPER : list str := [
  u "PRICE $"; u "ILLUSTRATIONS BY"; u "WINTER PREVIEW"; u "THE WEEKEND ESSAY"; u "SUBSCRIBE";
  u "THE NEW YORKER,"; u "LOVE BOOKS, LOVE FOLIO";
  u "HARPER'S INDEX"; u "HARPER" ++ [RSQUO] ++ u "S INDEX"; u "HARPERS INDEX"; u "FINDINGS"
].

Definition brand_names : re :=
  alts [lit_i "the new yorker"; lit_i "the atlantic";
        seqs [lit_i "harper"; opt (chr_i 39); lit_i "s magazine"]].

Definition FOOTER_RE : re :=
  seqs [Grp "1" brand_names; star dot; chr 44; plus ws; plus (Chr is_word); plus ws;
        between 1 2 digit; chr 44; plus ws; Rep true 4 (Some 4) digit].

Definition months : list string :=
  ["JAN"; "FEB"; "MAR"; "APR"; "MAY"; "JUN"; "JUL"; "AUG"; "SEP"; "OCT"; "NOV"; "DEC"]%string.

Definition DATE_RE : re :=
  seqs [Wordb; alts (map lit_i months); Wordb; opt (chr 46); opt (chr 44); plus ws;
        between 1 2 digit; chr 44; plus ws; Rep true 4 (Some 4) digit].

(* ================================================================= *)
(** ** Cleanup *)

(** First substitution of [dehyphenate]: a hyphen and the newline after
    it are removed when a letter [a-z] follows. *)
Fixpoint join_hyphenated (s : str) : str :=
  match s with
  | [] => []
  | c :: t =>
      match t with
      | c2 :: t2 =>
          if N.eqb c 45 && N.eqb c2 10
             && match t2 with c3 :: _ => is_lower_az c3 | [] => false end
          then join_hyphenated t2
          else c :: join_hyphenated t
      | [] => [c]
      end
  end.

(** Second substitution of [dehyphenate]: a newline becomes a space when a
    letter [a-z] follows and the character before it is none of [.:;];
    [prev] is the character of the subject before the position, if any. *)
Fixpoint join_wrapped (prev : option char) (s : str) : str :=
  match s with
  | [] => []
  | c :: t =>
      (if N.eqb c 10
          && negb (match prev with Some p => one_of ".:;" p | None => false end)
          && match t with c2 :: _ => is_lower_az c2 | [] => false end
       then 32%N else c) :: join_wrapped (Some c) t
  end.

Definition dehyphenate (text : str) : str :=
  join_wrapped None (join_hyphenated text).

(** The five single-character replacements of [normalize]. *)
Definition normalize_char (c : char) : char :=
  if N.eqb c EM_DASH then 45%N
  else if N.eqb c RSQUO then 39%N
  else if N.eqb c 8220 then 34%N
  else if N.eqb c 8221 then 34%N
  else if N.eqb c 160 then 32%N
  else c.
Definition normalize (text : str) : str := map normalize_char text.

(* ================================================================= *)
(** ** Brand and region *)

Definition quote_s : re := Chr (fun c => N.eqb c RSQUO || N.eqb c 39).

(** letters separated by optional white space, under [re.I] *)
Definition spaced_i (s : string) : list re :=
  flat_map (fun c => [chr_i c; star ws]) (u s).
Arguments spaced_i s%_string.

Definition _HARPERS_END_RE : re :=
  Grp "1" (alts [
    seqs [lit_i "HARPER"; opt quote_s; chr_i 83; plus ws; lit_i "INDEX"];
    lit_i "FINDINGS";
    seqs (spaced_i "HARPER" ++ [quote_s; star ws] ++ spaced_i "SINDE" ++ [chr_i 88]);
    seqs (spaced_i "FINDING" ++ [chr_i 83])]).

Definition detect_brand_from_text (text pdf_name : str) : str :=
  let n := lower pdf_name in
  let t := lower text in
  if contains (u "new yorker") n || contains (u "the_new_yorker") n then u "newyorker"
  else if contains (u "atlantic") n then u "atlantic"
  else if contains (u "harper") n then u "harpers"
  else if contains (u "harper's magazine") t || contains (u "harpers magazine") t
          || contains (u "harper" ++ [RSQUO] ++ u "s magazine") t then u "harpers"
  else if contains (u "the new yorker") t then u "newyorker"
  else if contains (u "the atlantic") t then u "atlantic"
  else u "auto".

(* ================================================================= *)
(** ** Patterns *)

Definition is_known_section_name (name brand : str) : bool :=
  let U := upper (strip name) in
  let known keys := existsb (startswith U) keys in
  if str_eqb brand (u "newyorker") then known NY_SECTIONS
  else if str_eqb brand (u "atlantic") then known ATL_SECTIONS
  else if str_eqb brand (u "harpers") then
    if contains (u "HARPER") U && contains (u "INDEX") U then false
    else if str_eqb (filter (fun c => negb (N.eqb c 32)) U) (u "FINDINGS") then false
    else known HARPERS_SECTIONS
  else known (NY_SECTIONS ++ ATL_SECTIONS ++ HARPERS_SECTIONS).

Definition valid_page (n : Z) : bool := (1 <=? n)%Z && (n <=? 999)%Z.

(** [[\w.'’\-]] *)
Definition name_char (c : char) : bool :=
  is_word c || one_of ".'-" c || N.eqb c RSQUO.

(** [[A-Z][\w.'’\-]+(?:\s+[A-Z][\w.'’\-]+)*] *)
Definition capitalized : re := Seq (Chr is_upper_az) (plus (Chr name_char)).
Definition author_shape : re := Seq capitalized (star (Seq (plus ws) capitalized)).

Definition AUTHOR_PAGE_TITLE : re :=
  seqs [Bol; Grp "author" author_shape; at_least 2 ws; Grp "page" digits_1_3;
        at_least 2 ws; Grp "title" (plus_lazy dot); star ws; Eol].

Definition PAGE_TITLE : re :=
  seqs [Bol; star ws; Grp "page" digits_1_3; plus ws; Grp "title" (plus_lazy dot);
        star ws; Eol].
Definition TRAILING_DOTS : re :=
  seqs [Bol; Grp "1" (plus_lazy dot); ws; at_least 2 (chr 46); ws; Grp "2" digits_1_3;
        star ws; Eol].
Definition TRAILING_NUM : re :=
  seqs [Bol; Grp "1" (plus_lazy dot); ws; Grp "2" digits_1_3; star ws; Eol].

(** [[A-Z '&/.\-]] *)
Definition section_char (c : char) : bool := is_upper_az c || one_of " '&/.-" c.
Definition SECTION_THEN_PAGE : re :=
  seqs [Bol; star ws; Grp "section" (Seq (Chr is_upper_az) (plus_lazy (Chr section_char)));
        at_least 2 ws; Grp "page" digits_1_3; star ws; Eol].

(** [LEADERS]: dot, ellipsis, middle dot, bullet, en and em dash, figure
    and thin space, hyphen. *)
Definition leader_char (c : char) : bool :=
  N.eqb c 46 || N.eqb c 8230 || N.eqb c 183 || N.eqb c 8226 || N.eqb c 8211
  || N.eqb c 8212 || N.eqb c 8199 || N.eqb c 8201 || N.eqb c 45.
Definition LEADERS : re := plus (Chr leader_char).

(** A hyphen or an em dash, then optional white space: the non-capturing
    group between page and author. *)
Definition dash : re := Alt (Seq (chr 45) (star ws)) (Seq (chr EM_DASH) (star ws)).

Definition TITLE_DOTS_PAGE_AUTHOR : re :=
  seqs [Bol; star ws; Grp "title" (plus_lazy dot); ws; LEADERS; ws; Grp "page" digits_1_3;
        star ws; dash; Grp "author" (plus_lazy dot); star ws; Eol].
Definition TITLE_AUTHOR_DOTS_PAGE : re :=
  seqs [Bol; star ws; Grp "title" (plus_lazy dot); star ws; dash;
        Grp "author" (plus_lazy dot); ws; LEADERS; ws; Grp "page" digits_1_3; star ws; Eol].
Definition AUTHOR_TITLE_PAGE : re :=
  seqs [Bol; star ws; Grp "author" author_shape; at_least 2 ws; Grp "title" (plus_lazy dot);
        at_least 2 ws; Grp "page" digits_1_3; star ws; Eol].
Definition TITLE_DOTS_PAGE : re :=
  seqs [Bol; star ws; Grp "title" (plus_lazy dot); ws; LEADERS; ws; Grp "page" digits_1_3;
        star ws; Eol].
Definition TITLE_SPACES_PAGE : re :=
  seqs [Bol; star ws; Grp "title" (plus_lazy dot); at_least 2 ws; Grp "page" digits_1_3;
        star ws; Eol].

(** The patterns written inline in [parse]. *)

(** [(The New Yorker|The Atlantic|Harper'?s Magazine).+\d{4}] under [re.I] *)
Definition ISSUE_TITLE_RE : re :=
  seqs [Grp "1" brand_names; plus dot; Rep true 4 (Some 4) digit].
(** [^\s*(\d{1,3})\s+(.+?)\s*$] *)
Definition PAGE_THEN_SECTION : re :=
  seqs [Bol; star ws; Grp "1" digits_1_3; plus ws; Grp "2" (plus_lazy dot); star ws; Eol].
(** [[a-zA-Z]] *)
Definition ALPHA_RE : re := Chr is_alpha_az.
(** [\d{1,3}\s*$] *)
Definition ENDS_IN_NUMBER : re := seqs [digits_1_3; star ws; Eol].
(** [\d{1,3}] *)
Definition NUMBER_RE : re := digits_1_3.
(** The pattern of the quoted-title branch: group 1 a double-quoted title,
    optional white space, an optional dash, optional group 2 a run without
    digits and double quotes (straight or curly), optional white space, an
    optional [(p.] with white space, group 3 [\d{1,3}], an optional closing
    parenthesis. *)
Definition QUOTED_TITLE_RE : re :=
  seqs [Grp "1" (seqs [chr 34; plus (Chr (fun c => negb (N.eqb c 34))); chr 34]);
        star ws; opt dash;
        opt (Grp "2" (plus (Chr (fun c =>
               negb (is_digit c || N.eqb c 34 || N.eqb c 8220 || N.eqb c 8221)))));
        star ws; opt (seqs [chr 40; chr 112; chr 46; star ws]);
        Grp "3" digits_1_3; opt (chr 41)].

(* ================================================================= *)
(** ** Parsing *)

(** [section_pages]: a Python [dict], which keeps its keys in insertion
    order; a value is a page or [None]. *)
Definition dict := list (str * option Z).

Fixpoint dict_get (d : dict) (k : str) : option (option Z) :=
  match d with
  | [] => None
  | (k', v) :: t => if str_eqb k k' then Some v else dict_get t k
  end.

(** [d[k] = v]: an existing key keeps its place, a new one goes last. *)
Fixpoint dict_set (d : dict) (k : str) (v : option Z) : dict :=
  match d with
  | [] => [(k, v)]
  | (k', v') :: t => if str_eqb k k' then (k', v) :: t else (k', v') :: dict_set t k v
  end.

(** Truth value of a [str]. *)
Definition nonempty (s : str) : bool :=
  match s with [] => false | _ => true end.

Definition has_alpha (title : str) : bool := is_some (re_search ALPHA_RE title).

(** The closure [try_section] of [parse]. *)
Definition try_section (brand line : str) : option (str * option Z) :=
  let U := upper (strip line) in
  orelse
    match re_match PAGE_THEN_SECTION U with
    | Some m =>
        if is_known_section_name (group m "2") brand then
          let pg := int_of (group m "1") in
          if valid_page pg then Some (group m "2", Some pg) else None
        else None
    | None => None
    end
    (fun _ =>
  orelse
    match re_match SECTION_THEN_PAGE U with
    | Some m2 =>
        if is_known_section_name (group m2 "section") brand then
          let pg := int_of (group m2 "page") in
          if valid_page pg then Some (group m2 "section", Some pg) else None
        else None
    | None => None
    end
    (fun _ =>
  if is_known_section_name U brand then Some (U, None) else None)).

(** The variables of the scan: the cursor [i], [section],
    [section_pages] and [items]. *)
Record pstate : Type := mkState {
  cur : nat;
  cur_section : option str;
  section_pages : dict;
  items : list TocItem
}.

Definition init_state : pstate := mkState 0 None [] [].

(** [i += 1] *)
Definition advance (st : pstate) : pstate :=
  mkState (S (cur st)) (cur_section st) (section_pages st) (items st).

(** [items.append(it)] *)
Definition append_item (it : TocItem) (st : pstate) : pstate :=
  mkState (cur st) (cur_section st) (section_pages st) (items st ++ [it]).

Definition append_if (b : bool) (it : TocItem) (st : pstate) : pstate :=
  if b then append_item it st else st.

(** What a section header does to the state: [section] is set, and its page
    is stored when the name is new or its stored page is [None]. *)
Definition enter_section (name : str) (pg : option Z) (st : pstate) : pstate :=
  let sp := section_pages st in
  let sp' :=
    match dict_get sp name with
    | None => dict_set sp name pg
    | Some None => dict_set sp name pg
    | Some (Some _) => sp
    end in
  mkState (cur st) (Some name) sp' (items st).

(** [section in {"CONTRIBUTORS", "THE MAIL"}] *)
Definition suppressed (sec : option str) : bool :=
  match sec with
  | Some s => str_eqb s (u "CONTRIBUTORS") || str_eqb s (u "THE MAIL")
  | None => false
  end.

(** [if m and section]: the match and the section when both are true. *)
Definition guarded (m : option mstate) (sec : option str) : option (mstate * str) :=
  match m, sec with
  | Some m, Some s => if nonempty s then Some (m, s) else None
  | _, _ => None
  end.

Definition POEMS : str := u "POEMS".

(** [" — "] *)
Definition CONT_SEP : str := [32%N; EM_DASH; 32%N].

(** The look-ahead of the [AUTHOR_PAGE_TITLE] branch on the stripped next
    line. *)
Definition is_continuation (brand nxt : str) : bool :=
  negb (is_some (re_search ENDS_IN_NUMBER nxt))
  && negb (is_some (try_section brand nxt))
  && (10 <=? length nxt) && (length nxt <=? 200).

(** The author of a quoted title: the stripped capture, or [None] when
    that is empty. *)
Definition author_or_none (a : str) : option str :=
  let a' := strip a in if nonempty a' then Some a' else None.

(** The items of the quoted-title branch, one per match with a valid
    page. *)
Definition quoted_items (sec : str) (ms : list mstate) : list TocItem :=
  flat_map (fun m =>
    let page := int_of (group m "3") in
    if valid_page page
    then [mkTocItem (Some page) (strip (group m "1")) (Some sec) (author_or_none (group m "2"))]
    else []) ms.

Section Scan.

Variable brand : str.
Variable lines : list str.

(** One iteration of [while i < len(lines)], for a state with
    [cur st < length lines]. *)
Definition step (st : pstate) : pstate :=
  let i := cur st in
  let raw := nth i lines [] in
  let line := strip raw in
  let U := upper line in
  let sec := cur_section st in
  if is_some (re_search DATE_RE line) then advance st else
  if existsb (fun noise => contains noise U) NOISE_UPPER then advance st else
  match try_section brand line with
  | Some (name, pg) => advance (enter_section name pg st)
  | None =>
  if suppressed sec then advance st else
  match guarded (re_match TITLE_DOTS_PAGE_AUTHOR line) sec with
  | Some (m, s) =>
      let page := int_of (group m "page") in
      let title := strip (group m "title") in
      let author := strip (group m "author") in
      advance (append_if (valid_page page)
                 (mkTocItem (Some page) title (Some s) (Some author)) st)
  | None =>
  match guarded (re_match TITLE_AUTHOR_DOTS_PAGE line) sec with
  | Some (m, s) =>
      let page := int_of (group m "page") in
      let title := strip (group m "title") in
      let author := strip (group m "author") in
      advance (append_if (valid_page page)
                 (mkTocItem (Some page) title (Some s) (Some author)) st)
  | None =>
  match guarded (re_match AUTHOR_TITLE_PAGE line) sec with
  | Some (m, s) =>
      let page := int_of (group m "page") in
      let title := strip (group m "title") in
      let author := strip (group m "author") in
      advance (append_if (valid_page page && has_alpha title)
                 (mkTocItem (Some page) title (Some s) (Some author)) st)
  | None =>
  match guarded (re_match TITLE_DOTS_PAGE line) sec with
  | Some (m, s) =>
      let page := int_of (group m "page") in
      let title := strip (group m "title") in
      advance (append_if (negb (is_known_section_name (upper title) brand) && valid_page page)
                 (mkTocItem (Some page) title (Some s) None) st)
  | None =>
  match guarded (re_match TITLE_SPACES_PAGE line) sec with
  | Some (m, s) =>
      let page := int_of (group m "page") in
      let title := strip (group m "title") in
      advance (append_if (negb (is_known_section_name (upper title) brand) && valid_page page)
                 (mkTocItem (Some page) title (Some s) None) st)
  | None =>
  match guarded (re_match AUTHOR_PAGE_TITLE line) sec with
  | Some (m, s) =>
      let page := int_of (group m "page") in
      let title := strip (group m "title") in
      let author := strip (group m "author") in
      if valid_page page && has_alpha title then
        if negb (str_eqb s POEMS) && (i + 1 <? length lines) then
          let nxt := strip (nth (i + 1) lines []) in
          if is_continuation brand nxt then
            advance (append_item
                       (mkTocItem (Some page) (title ++ CONT_SEP ++ nxt) (Some s) (Some author))
                       (advance st))
          else advance (append_item (mkTocItem (Some page) title (Some s) (Some author)) st)
        else advance (append_item (mkTocItem (Some page) title (Some s) (Some author)) st)
      else advance st
  | None =>
  match guarded (re_match PAGE_TITLE line) sec with
  | Some (m, s) =>
      let page := int_of (group m "page") in
      let title := strip (group m "title") in
      advance (append_if (valid_page page && has_alpha title)
                 (mkTocItem (Some page) title (Some s) None) st)
  | None =>
  match guarded (orelse (re_match TRAILING_DOTS line)
                        (fun _ => re_match TRAILING_NUM line)) sec with
  | Some (m, s) =>
      let title := strip (group m "1") in
      let page := int_of (group m "2") in
      advance (append_if (negb (is_known_section_name (upper title) brand)
                          && valid_page page && has_alpha title)
                 (mkTocItem (Some page) title (Some s) None) st)
  | None =>
  match sec with
  | Some s =>
      if str_eqb s POEMS && contains [34%N] line && is_some (re_search NUMBER_RE line) then
        let m2 := findall QUOTED_TITLE_RE line in
        advance (mkState (cur st) sec (section_pages st) (items st ++ quoted_items s m2))
      else advance st
  | None => advance st
  end end end end end end end end end end.

(** The [while] loop; [length lines] iterations are enough, since every
    iteration moves the cursor forward. *)
Fixpoint loop (fuel : nat) (st : pstate) : pstate :=
  match fuel with
  | O => st
  | S f => if cur st <? length lines then loop f (step st) else st
  end.

Definition scan : pstate := loop (length lines) init_state.

End Scan.

(* ================================================================= *)
(** ** De-duplication and the final order *)

(** [it.section], or the empty string for [None]. *)
Definition section_or_empty (it : TocItem) : str :=
  match section it with
  | Some s => s
  | None => []
  end.

(** The key of the [seen] set: page, lowercased title, section (or the
    empty string). *)
Definition dedup_key (it : TocItem) : option Z * str * str :=
  (page it, lower (title it), section_or_empty it).

Definition page_eqb (a b : option Z) : bool :=
  match a, b with
  | Some x, Some y => Z.eqb x y
  | None, None => true
  | _, _ => false
  end.

Definition key_eqb (a b : option Z * str * str) : bool :=
  let '(p1, t1, s1) := a in
  let '(p2, t2, s2) := b in
  page_eqb p1 p2 && str_eqb t1 t2 && str_eqb s1 s2.
Arguments key_eqb : simpl never.
Arguments dedup_key : simpl never.

(** The loop over [items] that fills [out], [seen] being the keys met. *)
Fixpoint dedupe_from (seen : list (option Z * str * str)) (its : list TocItem)
  : list TocItem :=
  match its with
  | [] => []
  | it :: t =>
      if existsb (key_eqb (dedup_key it)) seen then dedupe_from seen t
      else it :: dedupe_from (dedup_key it :: seen) t
  end.
Definition dedupe (its : list TocItem) : list TocItem := dedupe_from [] its.

(** The page used for sorting an item without one. *)
Definition NO_PAGE : Z := 999%Z.

(** [x.page if x.page is not None else 999] *)
Definition page_or_sentinel (it : TocItem) : Z :=
  match page it with
  | Some p => p
  | None => NO_PAGE
  end.

(** The key of [out.sort]. *)
Definition sort_key (it : TocItem) : Z * str * str :=
  (page_or_sentinel it, section_or_empty it, lower (title it)).

(** Python's order on [str]: code point by code point. *)
Definition str_compare (a b : str) : comparison := list_compare N.compare a b.

(** Python's order on the key tuples: the first component that differs
    decides. *)
Definition key_compare (a b : Z * str * str) : comparison :=
  let '(p1, s1, t1) := a in
  let '(p2, s2, t2) := b in
  match Z.compare p1 p2 with
  | Eq => match str_compare s1 s2 with
          | Eq => str_compare t1 t2
          | c => c
          end
  | c => c
  end.

Definition key_ltb (a b : Z * str * str) : bool :=
  match key_compare a b with Lt => true | _ => false end.

Section StableSort.

(** [list.sort(key=...)] is stable: elements with equal keys keep their
    order.  A stable sort has one possible result, computed here by
    insertion. *)
Variables (A K : Type) (ltb : K -> K -> bool) (key : A -> K).

Fixpoint insert_sorted (x : A) (l : list A) : list A :=
  match l with
  | [] => [x]
  | y :: t => if ltb (key y) (key x) then y :: insert_sorted x t else x :: l
  end.

Definition stable_sort (l : list A) : list A := fold_right insert_sorted [] l.

End StableSort.

Definition sort_items (its : list TocItem) : list TocItem :=
  stable_sort key_ltb sort_key its.

(** The last three statements of [parse] before its [return]. *)
Definition dedupe_sort (its : list TocItem) : list TocItem :=
  sort_items (dedupe its).

(* ================================================================= *)
(** ** Region slicing and [parse] *)

Definition slice_region (text brand : str) : str :=
  let low := lower text in
  let found := filter (fun p => negb (Z.eqb p (-1)))
                 [find low (u "table of contents"); find low (u "contents")] in
  let start := match found with
               | [] => 0%Z
               | p :: ps => fold_left Z.min ps p
               end in
  let text := slice_from text start in
  let fix take (lns : list str) : list str :=
    match lns with
    | [] => []
    | ln :: t => if is_some (re_search FOOTER_RE ln) then [] else rstrip ln :: take t
    end in
  let region := join NL (take (splitlines text)) in
  if str_eqb brand (u "harpers") then
    match re_search _HARPERS_END_RE region with
    | Some (start, _) => slice_to region start
    | None => region
    end
  else region.

Definition ParseResult : Type := option str * dict * list TocItem.

(** The first of the first 120 lines that names a magazine and a year. *)
Definition find_issue_title (text : str) : option str :=
  match List.find (fun L => is_some (re_search ISSUE_TITLE_RE L))
          (firstn 120 (splitlines text)) with
  | Some L => Some (strip L)
  | None => None
  end.

Definition nonblank (ln : str) : bool := nonempty (strip ln).

Definition parse (text brand : str) : ParseResult :=
  let issue_title := find_issue_title text in
  let lines :=
    if str_eqb brand (u "harpers") then filter nonblank (splitlines text)
    else filter nonblank (splitlines (slice_region text brand)) in
  let st := scan brand lines in
  (issue_title, section_pages st, dedupe_sort (items st)).

(* ================================================================= *)
(** ** The plain-text formatter *)

Definition THE_MAIL : str := u "THE MAIL".
Definition CONTRIBUTORS : str := u "CONTRIBUTORS".

Definition section_is (it : TocItem) (name : str) : bool :=
  match section it with
  | Some s => str_eqb s name
  | None => false
  end.

(** [by_sec.get(sec)] for a section name: the items filed under it, in the
    order they were met. *)
Definition by_sec (its : list TocItem) (sec : str) : list TocItem :=
  filter (fun it => section_is it sec) its.

(** [order]: the section names of the items, each at its first
    occurrence. *)
Fixpoint section_order (its : list TocItem) (order : list str) : list str :=
  match its with
  | [] => order
  | it :: t =>
      section_order t
        match section it with
        | Some s => if nonempty s && negb (existsb (str_eqb s) order)
                    then order ++ [s] else order
        | None => order
        end
  end.

Definition pair_ltb (a b : Z * str) : bool :=
  match Z.compare (fst a) (fst b) with
  | Lt => true
  | Eq => match str_compare (snd a) (snd b) with Lt => true | _ => false end
  | Gt => false
  end.

(** Trailing lines that are blank are popped. *)
Definition drop_trailing_blank (lines : list str) : list str :=
  let fix drop (l : list str) : list str :=
    match l with
    | ln :: t => if nonempty (strip ln) then l else drop t
    | [] => []
    end in
  rev (drop (rev lines)).

Section FormatPlain.

Variables (suppress_empty include_mail include_contributors : bool).

Definition keep_item (it : TocItem) : bool :=
  negb (section_is it THE_MAIL && negb include_mail)
  && negb (section_is it CONTRIBUTORS && negb include_contributors).

(** The test that skips the two administrative sections unless they were
    asked for. *)
Definition hidden (sec : str) : bool :=
  (str_eqb sec THE_MAIL || str_eqb sec CONTRIBUTORS)
  && negb (if str_eqb sec THE_MAIL then include_mail else include_contributors).

Definition section_line (sec : str) (pg : option Z) : str :=
  match pg with
  | Some n => sec ++ u " (p. " ++ str_of_int n ++ u ")"
  | None => sec
  end.

(** The first loop of [format_plain], over [section_pages.items()], with
    [its] the items already filtered. *)
Definition summary_block (section_pages : dict) (its : list TocItem) : list str :=
  flat_map (fun '(sec, pg) =>
    if hidden sec then []
    else if suppress_empty && negb (match by_sec its sec with [] => true | _ => false end)
    then []
    else [section_line sec pg]) section_pages.

Definition item_line (it : TocItem) : str :=
  let p := match page it with
           | Some n => u "(p. " ++ str_of_int n ++ u ")"
           | None => []
           end in
  let tail := match author it with
              | Some a => if nonempty a then CONT_SEP ++ a else []
              | None => []
              end in
  rstrip ([8226%N; 32%N] ++ title it ++ [32%N] ++ p ++ tail).

(** The second loop, over [order]. *)
Definition detail_block (section_pages : dict) (its : list TocItem) : list str :=
  flat_map (fun sec =>
    if hidden sec then []
    else
      let pg := match dict_get section_pages sec with Some v => v | None => None end in
      [section_line sec pg]
      ++ map item_line
           (stable_sort pair_ltb (fun x => (page_or_sentinel x, lower (title x)))
              (by_sec its sec))
      ++ [[]]) (section_order its []).

Definition format_plain (issue_title : option str) (section_pages : dict)
  (items : list TocItem) : str :=
  let its := filter keep_item items in
  let head := match issue_title with
              | Some t => if nonempty t then [t; []] else []
              | None => []
              end in
  let lines :=
    head ++ summary_block section_pages its
    ++ (match section_pages with [] => [] | _ => [[]] end)
    ++ detail_block section_pages its in
  join NL (drop_trailing_blank lines) ++ NL.

End FormatPlain.

(* ================================================================= *)
(** ** Text acquisition and [main] *)

Inductive exn : Type :=
| RuntimeError (msg : str)
| CalledProcessError
| OSError
| SystemExit (code : Z).

(** [except Exception] catches everything here but [SystemExit]. *)
Definition is_Exception (e : exn) : bool :=
  match e with
  | SystemExit _ => false
  | _ => true
  end.

Inductive outcome (A : Type) : Type :=
| Return (a : A)
| Raise (e : exn).
Arguments Return {A} a.
Arguments Raise {A} e.

Definition bind {A B} (c : outcome A) (f : A -> outcome B) : outcome B :=
  match c with
  | Return a => f a
  | Raise e => Raise e
  end.

Notation "x <- c ;; k" := (bind c (fun x => k))
  (at level 61, c at next level, right associativity).

(** [try: c  except Exception: h] *)
Definition try_except {A} (c : outcome A) (h : exn -> outcome A) : outcome A :=
  match c with
  | Return a => Return a
  | Raise e => if is_Exception e then h e else Raise e
  end.

(** What the program observes of its environment, for the PDF it was given:
    which tools are on the path and what each tool run yields. *)
Record World : Type := mkWorld {
  pdf_exists : bool;
  pdf_name : str;
  which : str -> bool;
  (** [pdftotext flag -f first -l last pdf -]: the standard output *)
  run_pdftotext : str -> Z -> Z -> outcome str;
  (** [pdftoppm -f 1 -l n -r 300 pdf prefix]: the images written, sorted *)
  run_pdftoppm : Z -> outcome (list str);
  (** [tesseract img base]: the text file written, if there is one *)
  run_tesseract : str -> outcome (option str)
}.

Record Args : Type := mkArgs {
  arg_pages : Z;
  arg_ocr_first : Z;
  arg_brand : str;
  arg_no_suppress_empty : bool;
  arg_include_mail : bool;
  arg_include_contributors : bool
}.

Section Acquisition.

Variable w : World.

Definition mode_flag (mode : str) : str :=
  if str_eqb mode (u "layout") then u "-layout" else u "-raw".

Definition pdftotext_extract (pages : Z) (mode : str) : outcome str :=
  if negb (which w (u "pdftotext")) then Raise (RuntimeError (u "pdftotext not found"))
  else run_pdftotext w (mode_flag mode) 1 pages.

Definition pdftotext_extract_page (page : Z) (mode : str) : outcome str :=
  if negb (which w (u "pdftotext")) then Raise (RuntimeError (u "pdftotext not found"))
  else run_pdftotext w (mode_flag mode) page page.

(** The loop of [ocr_first_pages] over the images: a failed [tesseract]
    run is skipped, a text file that exists is read. *)
Fixpoint ocr_images (imgs : list str) (parts : list str) : outcome (list str) :=
  match imgs with
  | [] => Return parts
  | img :: t =>
      match run_tesseract w img with
      | Raise CalledProcessError => ocr_images t parts
      | Raise e => Raise e
      | Return (Some txt) => ocr_images t (parts ++ [txt])
      | Return None => ocr_images t parts
      end
  end.

Definition ocr_first_pages (n_pages : Z) : outcome str :=
  if negb (which w (u "pdftoppm")) || negb (which w (u "tesseract")) then Return []
  else
    imgs <- run_pdftoppm w n_pages ;;
    parts <- ocr_images imgs [] ;;
    Return (join NL parts).

(** Fewer than 300 characters are left once every run of non-word
    characters and underscores is removed. *)
Definition looks_sparse (text : str) : bool :=
  length (filter (fun c => is_word c && negb (N.eqb c 95)) text) <? 300.

(** [\b\d{1,3}\b] *)
Definition SHORT_NUMBER : re := seqs [Wordb; digits_1_3; Wordb].

Fixpoint probe_pages (ps : list Z) : outcome Z :=
  match ps with
  | [] => Return 3%Z
  | p :: rest =>
      match pdftotext_extract_page p (u "layout") with
      | Raise e => if is_Exception e then probe_pages rest else Raise e
      | Return t =>
          let low := lower t in
          if (contains (u "contents") low || contains (u "table of contents") low)
             && negb (is_some (re_search _HARPERS_END_RE t))
             && (6 <=? length (findall SHORT_NUMBER t))
          then Return p
          else probe_pages rest
      end
  end.

Definition find_harpers_toc_page : outcome Z :=
  probe_pages [1; 2; 3; 4; 5; 6; 7]%Z.

(** One [try: t.append(...)  except Exception: pass]. *)
Definition append_page (page : Z) (mode : str) (t : list str) : outcome (list str) :=
  try_except
    (out <- pdftotext_extract_page page mode ;;
     Return (t ++ [normalize (dehyphenate out)]))
    (fun _ => Return t).

Definition harpers_text : outcome str :=
  tp <- find_harpers_toc_page ;;
  t1 <- append_page tp (u "layout") [] ;;
  t2 <- append_page (tp + 1) (u "layout") t1 ;;
  t3 <- append_page tp (u "raw") t2 ;;
  t4 <- append_page (tp + 1) (u "raw") t3 ;;
  Return (join NL (filter nonempty t4)).

Definition item_count (r : ParseResult) : nat := length (snd r).

(** The retry in raw mode, for a result [r] of the first pass. *)
Definition raw_retry (pages : Z) (brand : str) (r : ParseResult) : outcome ParseResult :=
  if negb (str_eqb brand (u "harpers")) && (item_count r <? 4) then
    try_except
      (out <- pdftotext_extract pages (u "raw") ;;
       let t2 := normalize (dehyphenate out) in
       let r2 := parse t2 brand in
       Return (if item_count r <? item_count r2 then r2 else r))
      (fun _ => Return r)
  else Return r.

(** The text used for brand detection: the layout rendering, or the OCR
    text when that rendering is sparse and OCR yields something, cleaned
    up. *)
Definition initial_text (a : Args) : outcome str :=
  text <- try_except (pdftotext_extract (arg_pages a) (u "layout")) (fun _ => Return []) ;;
  text <- (if looks_sparse text then
             o <- ocr_first_pages (arg_ocr_first a) ;;
             Return (if nonempty o then o else text)
           else Return text) ;;
  Return (normalize (dehyphenate text)).

Definition resolve_brand (a : Args) (text : str) : str :=
  if negb (str_eqb (arg_brand a) (u "auto")) then arg_brand a
  else detect_brand_from_text text (pdf_name w).

(** [main] from the existence check to the result that is formatted. *)
Definition main_result (a : Args) : outcome ParseResult :=
  if negb (pdf_exists w) then Raise (SystemExit 2) else
  text <- initial_text a ;;
  let brand := resolve_brand a text in
  text <- (if str_eqb brand (u "harpers") then harpers_text else Return text) ;;
  raw_retry (arg_pages a) brand (parse text brand).

(** [main] without [--json]: the text that is written or printed. *)
Definition main_plain (a : Args) : outcome str :=
  r <- main_result a ;;
  let '(issue, section_pages, items) := r in
  Return (format_plain (negb (arg_no_suppress_empty a)) (arg_include_mail a)
            (arg_include_contributors a) issue section_pages items).

End Acquisition.

(* ================================================================= *)
(** ** Vocabulary of the properties *)

Section Order.

Variables (A K : Type) (ltb : K -> K -> bool) (key : A -> K).

(** [x] may stand before [y]: [y]'s key is not below [x]'s. *)
Definition before (x y : A) : Prop := ltb (key y) (key x) = false.

End Order.

(** [r] can match the empty string. *)
Fixpoint nullable (r : re) : bool :=
  match r with
  | Eps | Bol | Eol | Wordb => true
  | Chr _ => false
  | Seq a b => nullable a && nullable b
  | Alt a b => nullable a || nullable b
  | Rep _ lo _ a => (lo =? 0) || nullable a
  | Grp _ a => nullable a
  end.

(** Every repeated sub-pattern of [r] consumes at least one character, so
    that no repetition of [go] ever stops for want of progress. *)
Fixpoint productive (r : re) : bool :=
  match r with
  | Eps | Bol | Eol | Wordb | Chr _ => true
  | Seq a b | Alt a b => productive a && productive b
  | Rep _ _ _ a => negb (nullable a) && productive a
  | Grp _ a => productive a
  end.

(** The patterns of the program. *)
Definition program_patterns : list re := [
  FOOTER_RE; DATE_RE; _HARPERS_END_RE; AUTHOR_PAGE_TITLE; PAGE_TITLE; TRAILING_DOTS;
  TRAILING_NUM; SECTION_THEN_PAGE; TITLE_DOTS_PAGE_AUTHOR; TITLE_AUTHOR_DOTS_PAGE;
  AUTHOR_TITLE_PAGE; TITLE_DOTS_PAGE; TITLE_SPACES_PAGE; ISSUE_TITLE_RE;
  PAGE_THEN_SECTION; ALPHA_RE; ENDS_IN_NUMBER; NUMBER_RE; QUOTED_TITLE_RE; SHORT_NUMBER
].

(** An item with a page, and that page in range. *)
Definition has_valid_page (it : TocItem) : Prop :=
  exists p, page it = Some p /\ valid_page p = true.

(** Every known page of [sp] is the same in [sp']. *)
Definition keeps_pages (sp sp' : dict) : Prop :=
  forall name p, dict_get sp name = Some (Some p) -> dict_get sp' name = Some (Some p).

(** What one iteration can do: the cursor moves forward by one or two
    lines, the section map keeps every known page, and the items grow
    by new items that all carry a page in range. *)
Record step_effect (st st' : pstate) : Prop := {
  eff_cursor : cur st' = S (cur st) \/ cur st' = S (S (cur st));
  eff_pages : keeps_pages (section_pages st) (section_pages st');
  eff_items : exists new, items st' = items st ++ new /\ Forall has_valid_page new
}.

(** [a] sorts strictly before [b]. *)
Definition key_lt (a b : TocItem) : Prop :=
  key_compare (sort_key a) (sort_key b) = Lt.

(** The rules tried before the [AUTHOR_PAGE_TITLE] branch all leave the
    line to it: no date, no noise phrase, no section header, no suppressed
    section, and none of the five earlier item shapes applies. *)
Definition reaches_author_page_title (brand : str) (sec : option str) (line : str) : bool :=
  negb (is_some (re_search DATE_RE line))
  && negb (existsb (fun noise => contains noise (upper line)) NOISE_UPPER)
  && negb (is_some (try_section brand line))
  && negb (suppressed sec)
  && negb (is_some (guarded (re_match TITLE_DOTS_PAGE_AUTHOR line) sec))
  && negb (is_some (guarded (re_match TITLE_AUTHOR_DOTS_PAGE line) sec))
  && negb (is_some (guarded (re_match AUTHOR_TITLE_PAGE line) sec))
  && negb (is_some (guarded (re_match TITLE_DOTS_PAGE line) sec))
  && negb (is_some (guarded (re_match TITLE_SPACES_PAGE line) sec)).

(** What one iteration of the scan does, by the rule that takes the line:
    a section header is entered; or the line is skipped; or items are
    filed under the open section, which is then a non-empty name outside
    the two suppressed sections. *)
Inductive step_case (brand : str) (lines : list str) (st : pstate) : pstate -> Prop :=
| case_header (name : str) (pg : option Z) :
    try_section brand (strip (nth (cur st) lines [])) = Some (name, pg) ->
    step_case brand lines st (advance (enter_section name pg st))
| case_skip :
    step_case brand lines st (advance st)
| case_items (s : str) (new : list TocItem) (cur' : nat) :
    cur_section st = Some s ->
    nonempty s = true ->
    suppressed (Some s) = false ->
    Forall (fun it => section it = Some s /\ has_valid_page it) new ->
    cur' = S (cur st) \/ (cur' = S (S (cur st)) /\ S (cur st) < length lines) ->
    step_case brand lines st
      (mkState cur' (cur_section st) (section_pages st) (items st ++ new)).

(** The keys of a dictionary, in order. *)
Definition keys (d : dict) : list str := map fst d.

(** The section map holds known section names only, each once, with pages
    in range. *)
Definition sections_ok (brand : str) (sp : dict) : Prop :=
  NoDup (keys sp)
  /\ Forall (fun kv => is_known_section_name (fst kv) brand = true
                       /\ forall p, snd kv = Some p -> valid_page p = true) sp.

(** An item filed under a recorded section that is not suppressed. *)
Definition filed_in (sp : dict) (it : TocItem) : Prop :=
  exists s, section it = Some s /\ nonempty s = true
            /\ suppressed (Some s) = false /\ In s (keys sp).

(** The invariant of the scan. *)
Definition scan_inv (brand : str) (st : pstate) : Prop :=
  sections_ok brand (section_pages st)
  /\ (forall s, cur_section st = Some s -> In s (keys (section_pages st)))
  /\ Forall (filed_in (section_pages st)) (items st).

(** [a] does not sort after [b]. *)
Definition key_le (a b : TocItem) : Prop :=
  key_compare (sort_key a) (sort_key b) <> Gt.

(** Equality of sort keys, as a test. *)
Definition sort_key_eqb (a b : Z * str * str) : bool :=
  match key_compare a b with Eq => true | _ => false end.

(** [l] is [l'] with some elements left out, the others in their order. *)
Inductive subsequence {A : Type} : list A -> list A -> Prop :=
| sub_nil : subsequence [] []
| sub_keep (x : A) (l l' : list A) : subsequence l l' -> subsequence (x :: l) (x :: l')
| sub_drop (x : A) (l l' : list A) : subsequence l l' -> subsequence l (x :: l').

(** The characters [normalize] replaces: em dash, right single quote, the
    two curly double quotes, no-break space. *)
Definition typographic (c : char) : bool :=
  N.eqb c EM_DASH || N.eqb c RSQUO || N.eqb c 8220 || N.eqb c 8221 || N.eqb c 160.

Section Repetition.

Variables (body : (mstate -> option mstate) -> mstate -> option mstate)
          (g : bool) (lo : nat) (hi : option nat) (k : mstate -> option mstate).

(** The loop that [go] runs for a repetition, under a name: [body] is the
    matcher of the repeated sub-pattern. *)
Fixpoint rep_loop (fuel n : nat) (st : mstate) {struct fuel} : option mstate :=
  let stop := fun _ : unit => if lo <=? n then k st else None in
  let more := fun _ : unit =>
    match fuel with
    | O => None
    | S f =>
        if below n hi then
          body (fun st' =>
                  if length (rest st') <? length (rest st)
                  then rep_loop f (S n) st' else None) st
        else None
    end in
  if g then orelse (more tt) stop else orelse (stop tt) more.

End Repetition.

(** The last character is a digit [0-9]. *)
Definition ends_with_digit (s : str) : bool :=
  match rev s with
  | c :: _ => is_digit c
  | [] => false
  end.

(** Modelled from the words of the claim on the hanging line: the line
    ends in a number of one to three digits, that is, the run of digits at
    its end has between one and three digits. *)
Definition trailing_digits (s : str) : nat :=
  (fix run (l : str) : nat :=
     match l with
     | c :: t => if is_digit c then S (run t) else 0
     | [] => 0
     end) (rev s).
Definition ends_in_one_to_three_digit_number (s : str) : bool :=
  (1 <=? trailing_digits s) && (trailing_digits s <=? 3).

(* ================================================================= *)
(** ** Sample inputs *)

(** A title with a hanging second line, under the New Yorker vocabulary. *)
Definition hanging_lines : list str :=
  [u "Jane Doe  12  A reply to last week"; u "and a hanging line"].
Definition hanging_state : pstate :=
  mkState 0 (Some (u "FICTION")) [(u "FICTION", None)] [].
Definition hanging_match : mstate :=
  Eval vm_compute in
    match re_match AUTHOR_PAGE_TITLE (u "Jane Doe  12  A reply to last week") with
    | Some m => m
    | None => MState [] [] []
    end.

Definition letters_text : str :=
  u "LETTERS    2" ++ NL ++ u "Jane Doe   A reply to last week   5".
Definition mail_text : str :=
  u "THE MAIL    2" ++ NL ++ u "Jane Doe   A reply to last week   5".
Definition reply_item (sec : str) : TocItem :=
  mkTocItem (Some 5%Z) (u "A reply to last week") (Some sec) (Some (u "Jane Doe")).

Definition two_sections_text : str :=
  u "FICTION    5" ++ NL ++ u "Jane Doe   A Story   12" ++ NL ++ u "GOINGS ON    3".

Definition default_args : Args := mkArgs 16 3 (u "auto") false false false.

(** A scanned PDF without a text layer, all tools installed, on which
    [pdftoppm] exits with an error. *)
Definition failing_ocr_world : World :=
  mkWorld true (u "issue.pdf") (fun _ => true)
    (fun _ _ _ => Return [])
    (fun _ => Raise CalledProcessError)
    (fun _ => Return None).

(** An issue of the New Yorker whose layout rendering yields three items
    and whose raw rendering yields seven; no OCR tools are needed. *)
Definition layout_text : str :=
  join NL [u "The New Yorker 2024"; u "FICTION";
           u "Winter Light   11"; u "The Ferry   14"; u "Salt   19"].
Definition raw_text : str :=
  join NL [u "THE NEW YORKER 2024"; u "FICTION   9";
           u "Winter Light   11"; u "The Ferry   14"; u "Salt   19";
           u "BOOKS   60"; u "Old Maps   61"; u "Quiet Hours   63";
           u "Paper Boats   66"; u "Late Trains   70"].
Definition two_renderings_world : World :=
  mkWorld true (u "The_New_Yorker_2024-11-04.pdf")
    (fun tool => str_eqb tool (u "pdftotext"))
    (fun flag _ _ => Return (if str_eqb flag (u "-layout") then layout_text else raw_text))
    (fun _ => Raise OSError)
    (fun _ => Raise OSError).

(** A next line that ends in a year, and the poetry section of Harper's. *)
Definition year_lines : list str :=
  [u "Jane Doe  12  A reply to last week"; u "the long winter of 2024"].
Definition poetry_state : pstate :=
  mkState 0 (Some (u "POETRY")) [(u "POETRY", None)] [].

(* ================================================================= *)
(** * Properties *)

(** ** Equality tests *)

Lemma str_eqb_eq (a b : str) : str_eqb a b = true <-> a = b.
Proof.
  revert b; induction a as [|x a IH]; intros [|y b]; simpl; split;
    try congruence; try reflexivity.
  - intros H. apply andb_true_iff in H as [Hx Ha].
    apply N.eqb_eq in Hx. apply IH in Ha. congruence.
  - intros H. injection H as -> ->.
    rewrite N.eqb_refl. simpl. now apply IH.
Qed.

Lemma str_eqb_refl (a : str) : str_eqb a a = true.
Proof. now apply str_eqb_eq. Qed.

Lemma page_eqb_eq (a b : option Z) : page_eqb a b = true <-> a = b.
Proof.
  destruct a as [x|], b as [y|]; simpl; split; try congruence; try reflexivity.
  - intros H. apply Z.eqb_eq in H. congruence.
  - intros H. injection H as ->. apply Z.eqb_refl.
Qed.

Lemma key_eqb_eq (a b : option Z * str * str) : key_eqb a b = true <-> a = b.
Proof.
  destruct a as [[p1 t1] s1], b as [[p2 t2] s2]. unfold key_eqb.
  rewrite !andb_true_iff, page_eqb_eq, !str_eqb_eq.
  split.
  - intros [[-> ->] ->]. reflexivity.
  - intros H. injection H as -> -> ->. auto.
Qed.

Lemma key_eqb_neq (a b : option Z * str * str) : key_eqb a b = false <-> a <> b.
Proof.
  rewrite <- key_eqb_eq. destruct (key_eqb a b); split; congruence.
Qed.

Lemma seen_test (k : option Z * str * str) (seen : list (option Z * str * str)) :
  existsb (key_eqb k) seen = true <-> In k seen.
Proof.
  rewrite existsb_exists. split.
  - intros (x & Hin & Heq). apply key_eqb_eq in Heq. now subst.
  - intros Hin. exists k. split; [assumption | now apply key_eqb_eq].
Qed.

(** ** The patterns *)

(** In the patterns of the program every repetition is over a sub-pattern
    that consumes a character: the matcher's repetitions end by their
    bounds or by a failed iteration, as Python's do. *)
Lemma program_patterns_productive : forallb productive program_patterns = true.
Proof. vm_compute. reflexivity. Qed.

(** The spec's scenario of a title with leaders, page and author. *)
Lemma vanishing_act_scenario :
  snd (parse (u "ESSAY" ++ NL ++ u "The Vanishing Act ......... 34 - Maria Lopez")
         (u "harpers"))
  = [mkTocItem (Some 34%Z) (u "The Vanishing Act") (Some (u "ESSAY"))
       (Some (u "Maria Lopez"))].
Proof. vm_compute. reflexivity. Qed.

(** A New Yorker section name is no section under the Atlantic vocabulary. *)
Lemma section_names_are_brand_scoped :
  try_section (u "atlantic") (u "THE TALK OF THE TOWN") = None
  /\ try_section (u "newyorker") (u "THE TALK OF THE TOWN")
     = Some (u "THE TALK OF THE TOWN", None)
  /\ try_section (u "newyorker") (u "15 THE TALK OF THE TOWN")
     = Some (u "THE TALK OF THE TOWN", Some 15%Z).
Proof. repeat split; vm_compute; reflexivity. Qed.

(** The file name decides the brand before the text does. *)
Lemma brand_from_file_name_first :
  detect_brand_from_text (u "the new yorker and harper's magazine") (u "Atlantic-2024.pdf")
  = u "atlantic".
Proof. vm_compute. reflexivity. Qed.

(** ** The de-duplication loop *)

Section Dedupe.

Implicit Types (seen : list (option Z * str * str)) (its : list TocItem).

Lemma dedupe_from_in seen its it :
  In it (dedupe_from seen its) -> In it its /\ ~ In (dedup_key it) seen.
Proof.
  revert seen; induction its as [|x t IH]; intros seen; simpl; [tauto|].
  destruct (existsb (key_eqb (dedup_key x)) seen) eqn:E.
  - intros H. apply IH in H. tauto.
  - intros [<- | H].
    + split; [now left|]. intros Hin. apply seen_test in Hin. congruence.
    + apply IH in H as [H1 H2]. split; [now right|].
      intros Hin. apply H2. now right.
Qed.

Lemma dedupe_from_nodup seen its : NoDup (map dedup_key (dedupe_from seen its)).
Proof.
  revert seen; induction its as [|x t IH]; intros seen; simpl; [constructor|].
  destruct (existsb (key_eqb (dedup_key x)) seen); [apply IH|].
  simpl. constructor; [|apply IH].
  intros Hin. apply in_map_iff in Hin as (y & Hk & Hy).
  apply dedupe_from_in in Hy as [_ Hy]. apply Hy. left. congruence.
Qed.

Lemma dedupe_from_keys seen its k :
  In k (map dedup_key its) ->
  In k seen \/ In k (map dedup_key (dedupe_from seen its)).
Proof.
  revert seen; induction its as [|x t IH]; intros seen; simpl; [tauto|].
  destruct (existsb (key_eqb (dedup_key x)) seen) eqn:E.
  - intros [<- | H]; [left; now apply seen_test | now apply IH].
  - intros [<- | H]; [right; now left|].
    destruct (IH (dedup_key x :: seen) H) as [[<- | Hs] | Ho].
    + right; now left.
    + now left.
    + right; now right.
Qed.

Lemma dedupe_from_first seen its it :
  In it (dedupe_from seen its) ->
  List.find (fun x => key_eqb (dedup_key x) (dedup_key it)) its = Some it.
Proof.
  revert seen; induction its as [|x t IH]; intros seen; simpl; [tauto|].
  destruct (existsb (key_eqb (dedup_key x)) seen) eqn:E.
  - intros H. pose proof (dedupe_from_in _ _ _ H) as [_ Hn].
    destruct (key_eqb (dedup_key x) (dedup_key it)) eqn:Ek.
    + apply key_eqb_eq in Ek. apply seen_test in E. rewrite Ek in E. contradiction.
    + now apply IH in H.
  - intros [<- | H].
    + now rewrite (proj2 (key_eqb_eq _ _) eq_refl).
    + pose proof (dedupe_from_in _ _ _ H) as [_ Hn].
      destruct (key_eqb (dedup_key x) (dedup_key it)) eqn:Ek.
      * apply key_eqb_eq in Ek. exfalso. apply Hn. now left.
      * now apply IH in H.
Qed.

(** A list whose keys are pairwise distinct and new goes through the loop
    unchanged. *)
Lemma dedupe_from_fixed seen its :
  NoDup (map dedup_key its) ->
  (forall it, In it its -> ~ In (dedup_key it) seen) ->
  dedupe_from seen its = its.
Proof.
  revert seen; induction its as [|x t IH]; intros seen Hnd Hs; simpl; [reflexivity|].
  inversion Hnd as [|? ? Hx Ht]; subst.
  destruct (existsb (key_eqb (dedup_key x)) seen) eqn:E.
  - apply seen_test in E. exfalso. apply (Hs x); [now left | assumption].
  - f_equal. apply IH; [assumption|].
    intros it Hin [Heq | Hin'].
    + apply Hx. rewrite Heq. now apply in_map.
    + apply (Hs it); [now right | assumption].
Qed.

End Dedupe.

(** ** The stable sort *)

Section StableSortFacts.

Variables (A K : Type) (ltb : K -> K -> bool) (key : A -> K).

(** [ltb] never holds both ways. *)
Hypothesis ltb_asym : forall a b, ltb a b = true -> ltb b a = false.

Local Abbreviation in_order := (before ltb key) (only parsing).

Lemma insert_sorted_perm (x : A) (l : list A) :
  Permutation (insert_sorted ltb key x l) (x :: l).
Proof.
  induction l as [|y t IH]; simpl; [reflexivity|].
  destruct (ltb (key y) (key x)); [|reflexivity].
  rewrite IH. apply perm_swap.
Qed.

Lemma stable_sort_perm (l : list A) : Permutation (stable_sort ltb key l) l.
Proof.
  induction l as [|x t IH]; simpl; [reflexivity|].
  rewrite insert_sorted_perm. now constructor.
Qed.

Lemma insert_sorted_hd (x y : A) (l : list A) :
  ltb (key y) (key x) = true -> HdRel in_order y l ->
  HdRel in_order y (insert_sorted ltb key x l).
Proof.
  intros Hyx Hl. destruct l as [|z t]; simpl.
  - constructor. now apply ltb_asym.
  - destruct (ltb (key z) (key x)).
    + constructor. now inversion Hl.
    + constructor. now apply ltb_asym.
Qed.

Lemma insert_sorted_sorted (x : A) (l : list A) :
  Sorted in_order l -> Sorted in_order (insert_sorted ltb key x l).
Proof.
  induction l as [|y t IH]; intros Hs; simpl.
  - repeat constructor.
  - inversion Hs as [|? ? Ht Hy]; subst.
    destruct (ltb (key y) (key x)) eqn:E.
    + constructor; [now apply IH | now apply insert_sorted_hd].
    + constructor; [assumption | now constructor].
Qed.

Lemma stable_sort_sorted (l : list A) : Sorted in_order (stable_sort ltb key l).
Proof.
  induction l as [|x t IH]; simpl; [constructor | now apply insert_sorted_sorted].
Qed.

(** Sorting a list that is in order changes nothing: equal keys keep their
    places. *)
Lemma stable_sort_fixed (l : list A) :
  Sorted in_order l -> stable_sort ltb key l = l.
Proof.
  induction l as [|x t IH]; intros Hs; simpl; [reflexivity|].
  inversion Hs as [|? ? Ht Hx]; subst.
  rewrite (IH Ht). destruct Hx as [|y t' Hxy]; simpl; [reflexivity|].
  unfold before in Hxy. now rewrite Hxy.
Qed.

Lemma stable_sort_idempotent (l : list A) :
  stable_sort ltb key (stable_sort ltb key l) = stable_sort ltb key l.
Proof. apply stable_sort_fixed, stable_sort_sorted. Qed.

End StableSortFacts.

(** ** The order on keys *)

Lemma str_compare_eq (a b : str) : str_compare a b = Eq <-> a = b.
Proof. apply list_compare_refl. intros x y. apply N.compare_eq_iff. Qed.

Lemma str_compare_antisym (a b : str) :
  str_compare b a = CompOpp (str_compare a b).
Proof. apply list_compare_antisym; [apply N.compare_eq_iff | apply N.compare_antisym]. Qed.

Lemma N_compare_trans (x y z : N) (c : comparison) :
  N.compare x y = c -> N.compare y z = c -> N.compare x z = c.
Proof.
  destruct c; rewrite ?N.compare_eq_iff, ?N.compare_lt_iff, ?N.compare_gt_iff; lia.
Qed.

Lemma str_compare_trans (a b c : str) (r : comparison) :
  str_compare a b = r -> str_compare b c = r -> str_compare a c = r.
Proof.
  apply list_compare_trans;
    [apply N.compare_eq_iff | apply N_compare_trans | apply N.compare_antisym].
Qed.

Lemma key_compare_eq (a b : Z * str * str) : key_compare a b = Eq <-> a = b.
Proof.
  destruct a as [[p1 s1] t1], b as [[p2 s2] t2]. simpl.
  destruct (Z.compare_spec p1 p2) as [-> | H | H].
  - destruct (str_compare s1 s2) eqn:Es.
    + apply str_compare_eq in Es as ->. rewrite str_compare_eq.
      split; [now intros -> | now intros [= ->]].
    + split; [discriminate | intros [= -> ->]].
      rewrite (proj2 (str_compare_eq _ _) eq_refl) in Es. discriminate.
    + split; [discriminate | intros [= -> ->]].
      rewrite (proj2 (str_compare_eq _ _) eq_refl) in Es. discriminate.
  - split; [discriminate | intros [= -> _ _]; lia].
  - split; [discriminate | intros [= -> _ _]; lia].
Qed.

Lemma key_compare_antisym (a b : Z * str * str) :
  key_compare b a = CompOpp (key_compare a b).
Proof.
  destruct a as [[p1 s1] t1], b as [[p2 s2] t2]. simpl.
  rewrite (Z.compare_antisym p1 p2), (str_compare_antisym s1 s2),
    (str_compare_antisym t1 t2).
  destruct (Z.compare p1 p2), (str_compare s1 s2), (str_compare t1 t2); reflexivity.
Qed.

Lemma key_compare_lt_trans (a b c : Z * str * str) :
  key_compare a b = Lt -> key_compare b c = Lt -> key_compare a c = Lt.
Proof.
  destruct a as [[p1 s1] t1], b as [[p2 s2] t2], c as [[p3 s3] t3]. simpl.
  destruct (Z.compare_spec p1 p2) as [-> | H12 | H12]; [| |discriminate].
  - destruct (Z.compare p2 p3); [| reflexivity | discriminate].
    destruct (str_compare s1 s2) eqn:E12; [| |discriminate].
    + apply str_compare_eq in E12 as ->.
      destruct (str_compare s2 s3); [| reflexivity | discriminate].
      intros H1 H2. exact (str_compare_trans _ _ _ H1 H2).
    + intros _. destruct (str_compare s2 s3) eqn:E23; [| |discriminate].
      * apply str_compare_eq in E23 as <-. now rewrite E12.
      * now rewrite (str_compare_trans _ _ _ E12 E23).
  - intros _. destruct (Z.compare_spec p2 p3) as [<- | H23 | H23]; [| |discriminate].
    + intros _. now rewrite (proj2 (Z.compare_lt_iff _ _) H12).
    + intros _. assert (H : (p1 < p3)%Z) by lia.
      now rewrite (proj2 (Z.compare_lt_iff _ _) H).
Qed.

Lemma key_ltb_asym (a b : Z * str * str) : key_ltb a b = true -> key_ltb b a = false.
Proof.
  unfold key_ltb. rewrite (key_compare_antisym a b).
  destruct (key_compare a b); simpl; congruence.
Qed.

(** ** Invariants of the scan *)

Lemma dict_get_set_same (d : dict) (k : str) (v : option Z) :
  dict_get (dict_set d k v) k = Some v.
Proof.
  induction d as [|[k' v'] t IH]; simpl.
  - now rewrite str_eqb_refl.
  - destruct (str_eqb k k') eqn:E; simpl; now rewrite E.
Qed.

Lemma dict_get_set_other (d : dict) (k k2 : str) (v : option Z) :
  k2 <> k -> dict_get (dict_set d k v) k2 = dict_get d k2.
Proof.
  intros Hne. induction d as [|[k' v'] t IH]; simpl.
  - destruct (str_eqb k2 k) eqn:E; [apply str_eqb_eq in E; contradiction | reflexivity].
  - destruct (str_eqb k k') eqn:E; simpl.
    + apply str_eqb_eq in E. subst k'.
      destruct (str_eqb k2 k) eqn:E2; [apply str_eqb_eq in E2; contradiction | reflexivity].
    + now rewrite IH.
Qed.

Lemma enter_section_keeps (name : str) (pg : option Z) (st : pstate) :
  keeps_pages (section_pages st) (section_pages (enter_section name pg st)).
Proof.
  intros k p Hk. unfold enter_section. simpl.
  assert (Hset : dict_get (section_pages st) name <> Some (Some p) \/ k <> name ->
                 dict_get (section_pages st) name = None \/
                 dict_get (section_pages st) name = Some None ->
                 dict_get (dict_set (section_pages st) name pg) k = Some (Some p)).
  { intros _ Hn. rewrite dict_get_set_other; [assumption|].
    intros ->. destruct Hn as [Hn | Hn]; congruence. }
  destruct (dict_get (section_pages st) name) as [[q|]|] eqn:E.
  - assumption.
  - apply Hset; [left; congruence | now right].
  - apply Hset; [left; congruence | now left].
Qed.

Lemma enter_section_fills (name : str) (pg : option Z) (st : pstate) :
  dict_get (section_pages st) name = Some None ->
  dict_get (section_pages (enter_section name pg st)) name = Some pg.
Proof.
  intros H. unfold enter_section. simpl. rewrite H. apply dict_get_set_same.
Qed.

Lemma quoted_items_valid (sec : str) (ms : list mstate) :
  Forall has_valid_page (quoted_items sec ms).
Proof.
  unfold quoted_items. induction ms as [|m t IH]; simpl; [constructor|].
  apply Forall_app. split; [|assumption].
  destruct (valid_page (int_of (group m "3"))) eqn:E; constructor; [|constructor].
  eexists. split; [reflexivity | exact E].
Qed.

Lemma keeps_pages_refl (sp : dict) : keeps_pages sp sp.
Proof. intros k p H. exact H. Qed.

Lemma effect_advance (st : pstate) : step_effect st (advance st).
Proof.
  split; simpl; [now left | apply keeps_pages_refl |].
  exists []. now rewrite app_nil_r.
Qed.

Lemma effect_append (b : bool) (p : Z) (t : str) (s a : option str) (st : pstate) :
  (b = true -> valid_page p = true) ->
  step_effect st (advance (append_if b (mkTocItem (Some p) t s a) st)).
Proof.
  intros Hb. destruct b; simpl; [|apply effect_advance].
  split; simpl; [now left | apply keeps_pages_refl |].
  eexists. split; [reflexivity|]. repeat constructor.
  exists p. split; [reflexivity | now apply Hb].
Qed.

Section ScanFacts.

Variables (brand : str) (lines : list str).

Lemma step_has_effect (st : pstate) : step_effect st (step brand lines st).
Proof.
  unfold step. cbv zeta.
  repeat
    match goal with
    | |- step_effect _ (advance (append_if _ _ _)) =>
        apply effect_append; rewrite ?andb_true_iff; tauto
    | |- step_effect _ (advance ?s) =>
        match s with st => apply effect_advance end
    | |- step_effect _ (if ?b then _ else _) => destruct b eqn:?
    | |- step_effect _ (match ?x with _ => _ end) => destruct x eqn:?
    end.
  - (* a section header *)
    split; simpl; [now left | apply enter_section_keeps |].
    exists []. now rewrite app_nil_r.
  - (* a title with its hanging line *)
    split; simpl; [now right | apply keeps_pages_refl |].
    eexists. split; [reflexivity|]. repeat constructor.
    eexists. split; [reflexivity|].
    match goal with H : _ && _ = true |- _ => apply andb_true_iff in H; tauto end.
  - split; simpl; [now left | apply keeps_pages_refl |].
    eexists. split; [reflexivity|]. repeat constructor.
    eexists. split; [reflexivity|].
    match goal with H : valid_page _ && _ = true |- _ => apply andb_true_iff in H; tauto end.
  - split; simpl; [now left | apply keeps_pages_refl |].
    eexists. split; [reflexivity|]. repeat constructor.
    eexists. split; [reflexivity|].
    match goal with H : valid_page _ && _ = true |- _ => apply andb_true_iff in H; tauto end.
  - (* quoted titles *)
    split; simpl; [now left | apply keeps_pages_refl |].
    eexists. split; [reflexivity | apply quoted_items_valid].
Qed.

End ScanFacts.

Section LoopFacts.

Variables (brand : str) (lines : list str).

Lemma loop_keeps_pages (fuel : nat) (st : pstate) :
  keeps_pages (section_pages st) (section_pages (loop brand lines fuel st)).
Proof.
  revert st; induction fuel as [|f IH]; intros st; simpl; [apply keeps_pages_refl|].
  destruct (cur st <? length lines); [|apply keeps_pages_refl].
  intros k p H. apply IH. now apply (eff_pages (step_has_effect brand lines st)).
Qed.

Lemma loop_items_valid (fuel : nat) (st : pstate) :
  Forall has_valid_page (items st) ->
  Forall has_valid_page (items (loop brand lines fuel st)).
Proof.
  revert st; induction fuel as [|f IH]; intros st Hst; simpl; [assumption|].
  destruct (cur st <? length lines); [|assumption].
  apply IH. destruct (eff_items (step_has_effect brand lines st)) as (new & -> & Hnew).
  apply Forall_app. now split.
Qed.

(** The loop runs to the end of the lines: the fuel it is given is never
    what stops it. *)
Lemma loop_exhausts (fuel : nat) (st : pstate) :
  length lines - cur st <= fuel ->
  length lines <= cur (loop brand lines fuel st).
Proof.
  revert st; induction fuel as [|f IH]; intros st Hf; simpl; [lia|].
  destruct (cur st <? length lines) eqn:E; [|apply Nat.ltb_ge in E; lia].
  apply IH. destruct (eff_cursor (step_has_effect brand lines st)); lia.
Qed.

Lemma scan_exhausts : length lines <= cur (scan brand lines).
Proof. apply loop_exhausts. simpl. lia. Qed.

Lemma scan_items_valid : Forall has_valid_page (items (scan brand lines)).
Proof. apply loop_items_valid. constructor. Qed.

End LoopFacts.

(* ================================================================= *)
(** * The claims *)

(** ** C7: de-duplication keeps the first item of every key *)

Lemma dedupe_from_first_split (seen : list (option Z * str * str))
  (its : list TocItem) (it : TocItem) :
  In it (dedupe_from seen its) ->
  exists before after,
    its = before ++ it :: after
    /\ forall x, In x before -> dedup_key x <> dedup_key it.
Proof.
  revert seen; induction its as [|x t IH]; intros seen; simpl; [tauto|].
  destruct (existsb (key_eqb (dedup_key x)) seen) eqn:E.
  - intros H. pose proof (dedupe_from_in _ _ _ H) as [_ Hn].
    apply IH in H as (b & a & -> & Hb). exists (x :: b), a. split; [reflexivity|].
    intros y [<- | Hy]; [|now apply Hb].
    intros Heq. apply seen_test in E. rewrite Heq in E. contradiction.
  - intros [<- | H].
    + exists [], t. split; [reflexivity | intros y []].
    + pose proof (dedupe_from_in _ _ _ H) as [_ Hn].
      apply IH in H as (b & a & -> & Hb). exists (x :: b), a. split; [reflexivity|].
      intros y [<- | Hy]; [|now apply Hb].
      intros Heq. apply Hn. left. exact Heq.
Qed.

(** C7. For every item list, the de-duplication loop keeps exactly one item
    per key that occurs in the list, the key of an item being its page,
    its lowercased title and its section (read as the empty string when
    there is none): the keys of the result are pairwise distinct and are
    the keys of the input.  The item kept for a key is the first item of
    the input with that key, unchanged in all its fields: no item before
    it in the input has its key.  Between items that have a section, to
    have the same key is to agree on page, lowercased title and section.
    Sorting afterwards only permutes the kept items. *)
Theorem dedupe_keeps_first_of_each_key (its : list TocItem) :
  let key := fun it : TocItem =>
               (page it, lower (title it),
                match section it with Some s => s | None => [] end) in
  NoDup (map key (dedupe its))
  /\ (forall k, In k (map key its) <-> In k (map key (dedupe its)))
  /\ (forall it, In it (dedupe its) ->
        exists before after,
          its = before ++ it :: after
          /\ forall x, In x before -> key x <> key it)
  /\ (forall a b, section a <> None -> section b <> None ->
        (key a = key b
         <-> page a = page b /\ lower (title a) = lower (title b)
             /\ section a = section b))
  /\ Permutation (dedupe_sort its) (dedupe its).
Proof.
  intros key. change key with dedup_key. unfold dedupe. repeat split.
  - apply dedupe_from_nodup.
  - intros H. destruct (dedupe_from_keys [] its k H) as [[] | Hk]. exact Hk.
  - intros H. apply in_map_iff in H as (it & <- & Hit).
    apply dedupe_from_in in Hit as [Hit _]. now apply in_map.
  - intros it. apply dedupe_from_first_split.
  - unfold dedup_key, section_or_empty in H1.
    destruct (section a), (section b); congruence.
  - unfold dedup_key, section_or_empty in H1.
    destruct (section a), (section b); congruence.
  - unfold dedup_key, section_or_empty in H1.
    destruct (section a) as [sa|], (section b) as [sb|]; try congruence.
  - intros (Hp & Ht & Hs). unfold dedup_key, section_or_empty.
    rewrite Hp, Ht, Hs. reflexivity.
  - apply stable_sort_perm.
Qed.

(** ** C8: de-duplicating and sorting twice *)

Lemma dedupe_sort_nodup (its : list TocItem) :
  NoDup (map dedup_key (dedupe_sort its)).
Proof.
  apply (Permutation_NoDup (l := map dedup_key (dedupe its))).
  - apply Permutation_map, Permutation_sym, stable_sort_perm.
  - apply dedupe_from_nodup.
Qed.

(** C8. De-duplicating and sorting is idempotent: applied to its own
    output, the step returns that output unchanged. *)
Theorem dedupe_sort_idempotent (its : list TocItem) :
  dedupe_sort (dedupe_sort its) = dedupe_sort its.
Proof.
  unfold dedupe_sort at 1.
  assert (Hfix : dedupe (dedupe_sort its) = dedupe_sort its).
  { apply dedupe_from_fixed; [apply dedupe_sort_nodup | intros it _ []]. }
  rewrite Hfix. apply stable_sort_idempotent. exact key_ltb_asym.
Qed.

(** ** C1: the order of the final item list *)

Lemma key_lt_trans (a b c : TocItem) : key_lt a b -> key_lt b c -> key_lt a c.
Proof. apply key_compare_lt_trans. Qed.

Lemma sort_key_with_page (it : TocItem) (p : Z) :
  page it = Some p -> sort_key it = (p, section_or_empty it, lower (title it)).
Proof. intros H. unfold sort_key, page_or_sentinel. now rewrite H. Qed.

(** Among items that carry a page, the sort key determines the key of the
    de-duplication. *)
Lemma sort_key_inj (a b : TocItem) :
  has_valid_page a -> has_valid_page b ->
  sort_key a = sort_key b -> dedup_key a = dedup_key b.
Proof.
  intros (p & Hp & _) (q & Hq & _).
  rewrite (sort_key_with_page _ Hp), (sort_key_with_page _ Hq).
  unfold dedup_key. rewrite Hp, Hq. now intros [= -> -> ->].
Qed.

Lemma before_distinct_lt (a b : TocItem) :
  before key_ltb sort_key a b -> sort_key a <> sort_key b -> key_lt a b.
Proof.
  unfold before, key_ltb, key_lt. intros Hba Hne.
  rewrite (key_compare_antisym (sort_key a) (sort_key b)) in Hba.
  destruct (key_compare (sort_key a) (sort_key b)) eqn:E; simpl in Hba;
    [|reflexivity|discriminate].
  apply key_compare_eq in E. contradiction.
Qed.

Lemma sorted_distinct_strict (l : list TocItem) :
  Sorted (before key_ltb sort_key) l ->
  NoDup (map dedup_key l) ->
  Forall has_valid_page l ->
  StronglySorted key_lt l.
Proof.
  intros Hs Hnd Hv. apply Sorted_StronglySorted; [exact key_lt_trans|].
  induction Hs as [|x l Hl IH Hx]; [constructor|].
  inversion Hnd as [|? ? Hnx Hndl]; subst.
  inversion Hv as [|? ? Hvx Hvl]; subst.
  constructor; [now apply IH|].
  destruct Hx as [|y t Hxy]; constructor.
  apply before_distinct_lt; [assumption|].
  intros Heq. apply Hnx. left. symmetry. apply sort_key_inj; try assumption.
  now inversion Hvl.
Qed.

Lemma strongly_sorted_separates (l : list TocItem) :
  StronglySorted key_lt l ->
  forall a b, In a l -> In b l -> a <> b -> key_lt a b \/ key_lt b a.
Proof.
  induction 1 as [|x l Hl IH Hx]; intros a b Ha Hb Hne; [destruct Ha|].
  rewrite Forall_forall in Hx.
  destruct Ha as [<- | Ha], Hb as [<- | Hb].
  - contradiction.
  - left. now apply Hx.
  - right. now apply Hx.
  - now apply IH.
Qed.

Lemma dedupe_sort_valid (its : list TocItem) :
  Forall has_valid_page its -> Forall has_valid_page (dedupe_sort its).
Proof.
  intros H. rewrite Forall_forall in *. intros it Hin.
  apply (Permutation_in _ (stable_sort_perm key_ltb sort_key (dedupe its))) in Hin.
  apply dedupe_from_in in Hin as [Hin _]. now apply H.
Qed.

(** C1. In every result of [parse] the item list is sorted by a total
    order on the key made of the page, the section name and the lowercased
    title, in this order of precedence.  Every item carries a page between
    1 and 999, so that an item without a page, which would sort after the
    numbered ones, does not occur.  The list is strictly increasing in the
    key: any two distinct items of it are separated by the order, and
    there are no ties. *)
Theorem parse_items_strictly_ordered (text brand : str) :
  let out := snd (parse text brand) in
  Forall (fun it => exists p, page it = Some p /\ valid_page p = true
                      /\ sort_key it
                         = (p, match section it with Some s => s | None => [] end,
                            lower (title it))) out
  /\ (forall a b : TocItem, key_lt a b \/ sort_key a = sort_key b \/ key_lt b a)
  /\ StronglySorted key_lt out
  /\ (forall a b, In a out -> In b out -> a <> b ->
        key_compare (sort_key a) (sort_key b) <> Eq)
  /\ (forall a b, In a out -> In b out -> page a = None -> page b <> None ->
        key_lt b a).
Proof.
  unfold parse. cbv zeta. cbn [snd].
  match goal with |- context [dedupe_sort (items ?s)] => set (raw := items s) end.
  assert (Hraw : Forall has_valid_page raw) by apply scan_items_valid.
  pose proof (dedupe_sort_valid Hraw) as Hv.
  assert (Hss : StronglySorted key_lt (dedupe_sort raw)).
  { apply sorted_distinct_strict; [|apply dedupe_sort_nodup|assumption].
    apply stable_sort_sorted. exact key_ltb_asym. }
  split; [|split; [|split; [|split]]].
  - eapply Forall_impl; [|exact Hv].
    intros it (p & Hp & Hvp). exists p. repeat split; try assumption.
    now apply sort_key_with_page.
  - intros a b. unfold key_lt.
    destruct (key_compare (sort_key a) (sort_key b)) eqn:E.
    + right. left. now apply key_compare_eq.
    + now left.
    + right. right. rewrite key_compare_antisym, E. reflexivity.
  - exact Hss.
  - intros a b Ha Hb Hne Heq.
    destruct (strongly_sorted_separates Hss Ha Hb Hne) as [H | H].
    + unfold key_lt in H. congruence.
    + unfold key_lt in H. rewrite key_compare_antisym, Heq in H. discriminate.
  - intros a b Ha _ Hnone _. rewrite Forall_forall in Hv.
    destruct (Hv a Ha) as (p & Hp & _). congruence.
Qed.

(** A remark on item lists that [parse] does not build.  The page that
    stands in for a missing one in the sort key is 999, itself a valid
    page: on a list made by hand, an item without a page and an item of
    page 999 with the same section and title both pass the de-duplication
    and have the same sort key. *)
Lemma missing_page_ties_with_page_999 :
  valid_page NO_PAGE = true
  /\ let a := mkTocItem None (u "a") (Some (u "FICTION")) None in
     let b := mkTocItem (Some 999%Z) (u "a") (Some (u "FICTION")) None in
     let c := mkTocItem (Some 999%Z) (u "b") (Some (u "FICTION")) None in
     dedupe [a; b] = [a; b]
     /\ dedup_key a <> dedup_key b
     /\ key_compare (sort_key a) (sort_key b) = Eq
     /\ dedupe_sort [c; a] = [a; c].
Proof.
  split; [reflexivity|]. cbv zeta. repeat split; try reflexivity.
  intros H. discriminate H.
Qed.

(** ** C6: a recorded section page is never overwritten *)

Lemma is_some_false {A} (o : option A) : is_some o = false -> o = None.
Proof. destruct o; [discriminate | reflexivity]. Qed.

(** C6. During a scan, a page recorded for a section name stays what it is
    through any number of further iterations, whatever lines they meet;
    and when the line at the cursor is a header for [name] that carries a
    page while the recorded value is [None], the iteration records that
    page. *)
Theorem section_page_fixed_once_known
  (brand : str) (lines : list str) (st : pstate) (name : str) :
  (forall fuel p,
      dict_get (section_pages st) name = Some (Some p) ->
      dict_get (section_pages (loop brand lines fuel st)) name = Some (Some p))
  /\ (forall pg,
        let line := strip (nth (cur st) lines []) in
        is_some (re_search DATE_RE line) = false ->
        existsb (fun noise => contains noise (upper line)) NOISE_UPPER = false ->
        try_section brand line = Some (name, Some pg) ->
        dict_get (section_pages st) name = Some None ->
        dict_get (section_pages (step brand lines st)) name = Some (Some pg)).
Proof.
  split.
  - intros fuel p H. now apply loop_keeps_pages.
  - intros pg line Hdate Hnoise Hsec Hnone.
    unfold step. cbv zeta. fold line. rewrite Hdate, Hnoise, Hsec.
    cbn [section_pages advance]. now apply enter_section_fills.
Qed.

(** The claim at work under the Harper's vocabulary: [ESSAY] was met
    without a page, the line [ESSAY    7] fills it in, and the later line
    [ESSAY    9] does not change it. *)
Lemma section_page_fixed_once_known_witness :
  let brand := u "harpers" in
  let lines := [u "ESSAY"; u "ESSAY    7"; u "ESSAY    9"] in
  let st1 := mkState 1 (Some (u "ESSAY")) [(u "ESSAY", None)] [] in
  let st2 := mkState 2 (Some (u "ESSAY")) [(u "ESSAY", Some 7%Z)] [] in
  dict_get (section_pages (step brand lines st1)) (u "ESSAY") = Some (Some 7%Z)
  /\ dict_get (section_pages (loop brand lines 1 st2)) (u "ESSAY") = Some (Some 7%Z).
Proof.
  intros brand lines st1 st2. split.
  - apply (proj2 (section_page_fixed_once_known brand lines st1 (u "ESSAY")) 7%Z);
      vm_compute; reflexivity.
  - apply (proj1 (section_page_fixed_once_known brand lines st2 (u "ESSAY")) 1 7%Z).
    vm_compute; reflexivity.
Defined.

(** ** C10: the hanging second line of a title *)

(** The [AUTHOR_PAGE_TITLE] branch, by the tests of the code.  For a line
    that reaches the branch and yields an item there, the next line,
    stripped, is appended to the title and skipped by the cursor exactly
    when the section is not [POEMS], a next line exists, the pattern of a
    line ending in a number finds no match in it, it is not a section
    header and its length is between 10 and 200. *)
Lemma hanging_line_appended_exactly_when
  (brand : str) (lines : list str) (st : pstate) (m : mstate) (s : str) :
  let line := strip (nth (cur st) lines []) in
  let nxt := strip (nth (cur st + 1) lines []) in
  let page := int_of (group m "page") in
  let title := strip (group m "title") in
  let author := strip (group m "author") in
  let continues :=
    negb (str_eqb s POEMS) && (cur st + 1 <? length lines)
    && negb (is_some (re_search ENDS_IN_NUMBER nxt))
    && negb (is_some (try_section brand nxt))
    && (10 <=? length nxt) && (length nxt <=? 200) in
  reaches_author_page_title brand (cur_section st) line = true ->
  guarded (re_match AUTHOR_PAGE_TITLE line) (cur_section st) = Some (m, s) ->
  valid_page page && has_alpha title = true ->
  step brand lines st =
    if continues
    then mkState (cur st + 2) (cur_section st) (section_pages st)
           (items st ++ [mkTocItem (Some page) (title ++ CONT_SEP ++ nxt)
                           (Some s) (Some author)])
    else mkState (cur st + 1) (cur_section st) (section_pages st)
           (items st ++ [mkTocItem (Some page) title (Some s) (Some author)]).
Proof.
  intros line nxt page title author continues Hreach Hm Hok.
  unfold reaches_author_page_title in Hreach.
  repeat (apply andb_true_iff in Hreach as [Hreach ?]).
  repeat match goal with
         | H : negb _ = true |- _ => apply negb_true_iff in H
         end.
  repeat match goal with
         | H : is_some _ = false |- _ => apply is_some_false in H
         end.
  unfold step. cbv zeta. fold line.
  repeat match goal with
         | H : _ = _ |- _ => rewrite H
         end.
  cbn [is_some]. fold page title author nxt. rewrite Hok.
  unfold continues, is_continuation.
  destruct (negb (str_eqb s POEMS) && (cur st + 1 <? length lines)); cbn [andb].
  - destruct (negb (is_some (re_search ENDS_IN_NUMBER nxt))
              && negb (is_some (try_section brand nxt))
              && (10 <=? length nxt) && (length nxt <=? 200));
      unfold advance, append_item; cbn [cur cur_section section_pages items];
      f_equal; lia.
  - unfold advance, append_item; cbn [cur cur_section section_pages items];
      f_equal; lia.
Qed.

(** ** The pattern of a line that ends in a number *)

Lemma go_rep (g : bool) (lo : nat) (hi : option nat) (a : re)
  (k : mstate -> option mstate) (st : mstate) :
  go (Rep g lo hi a) k st = rep_loop (go a) g lo hi k (length (rest st)) 0 st.
Proof. reflexivity. Qed.

Lemma rep_loop_chr (p : char -> bool) (g : bool) (lo : nat) (hi : option nat)
  (k : mstate -> option mstate) (m : mstate) (fuel n : nat) (st : mstate) :
  rep_loop (go (Chr p)) g lo hi k fuel n st = Some m ->
  exists pre post,
    rest st = pre ++ post /\ forallb p pre = true /\ lo <= n + length pre
    /\ k (MState (rev pre ++ seen st) post (caps st)) = Some m.
Proof.
  revert n st. induction fuel as [|f IH]; intros n st H.
  - assert (Hk : (if lo <=? n then k st else None) = Some m).
    { cbn [rep_loop] in H. destruct g; unfold orelse in H; [exact H|].
      destruct (lo <=? n); [|discriminate]. destruct (k st); [assumption | discriminate]. }
    destruct (lo <=? n) eqn:E; [|discriminate]. apply Nat.leb_le in E.
    exists [], (rest st). cbn. repeat split; try lia. now destruct st.
  - assert (Hc : (if lo <=? n then k st else None) = Some m
                 \/ exists c t, rest st = c :: t /\ p c = true
                      /\ rep_loop (go (Chr p)) g lo hi k f (S n) (consume c t st) = Some m).
    { cbn [rep_loop] in H. unfold orelse in H.
      assert (Hm : forall x,
                 (if below n hi
                  then go (Chr p)
                         (fun st' => if length (rest st') <? length (rest st)
                                     then rep_loop (go (Chr p)) g lo hi k f (S n) st'
                                     else None) st
                  else None) = Some x ->
                 exists c t, rest st = c :: t /\ p c = true
                   /\ rep_loop (go (Chr p)) g lo hi k f (S n) (consume c t st) = Some x).
      { intros x Hx. destruct (below n hi); [|discriminate]. cbn [go] in Hx.
        destruct (rest st) as [|c t] eqn:Er; [discriminate|].
        destruct (p c) eqn:Ep; [|discriminate].
        cbn [consume rest] in Hx.
        destruct (length t <? length (c :: t)); [|discriminate].
        exists c, t. repeat split; assumption. }
      destruct g.
      - match type of H with
        | match ?x with _ => _ end = _ => destruct x eqn:Ex
        end.
        + right. injection H as <-. now apply Hm.
        + now left.
      - match type of H with
        | match ?x with _ => _ end = _ => destruct x eqn:Ex
        end.
        + left. congruence.
        + right. now apply Hm. }
    destruct Hc as [Hk | (c & t & Hr & Hp & Hl)].
    + destruct (lo <=? n) eqn:E; [|discriminate]. apply Nat.leb_le in E.
      exists [], (rest st). cbn. repeat split; try lia. now destruct st.
    + apply IH in Hl as (pre & post & H1 & H2 & H3 & H4).
      cbn [consume rest seen caps] in *.
      exists (c :: pre), post. repeat split.
      * rewrite Hr, H1. reflexivity.
      * cbn. now rewrite Hp.
      * cbn [length]. lia.
      * cbn [rev]. rewrite <- app_assoc. exact H4.
Qed.

Lemma search_from_some (r : re) (sn rs : str) (i : nat) (m : mstate) :
  search_from r sn rs = Some (i, m) ->
  exists a b, rs = a ++ b /\ go r (@Some _) (MState (rev a ++ sn) b []) = Some m.
Proof.
  revert sn. induction rs as [|c t IH]; intros sn H; cbn [search_from] in H.
  - destruct (go r (@Some _) (MState sn [] [])) eqn:E; [|discriminate].
    injection H as _ <-. now exists [], [].
  - destruct (go r (@Some _) (MState sn (c :: t) [])) eqn:E.
    + injection H as _ <-. now exists [], (c :: t).
    + apply IH in H as (a & b & -> & H). exists (c :: a), b. split; [reflexivity|].
      cbn [rev]. now rewrite <- app_assoc.
Qed.

Lemma search_from_found (r : re) (sn a b : str) (m : mstate) :
  go r (@Some _) (MState (rev a ++ sn) b []) = Some m ->
  is_some (search_from r sn (a ++ b)) = true.
Proof.
  revert sn. induction a as [|c t IH]; intros sn H.
  - cbn [rev app] in *. destruct b; cbn [search_from]; now rewrite H.
  - cbn [app search_from]. destruct (go r (@Some _) (MState sn (c :: t ++ b) []));
      [reflexivity|].
    apply IH. cbn [rev] in H. now rewrite <- app_assoc in H.
Qed.

Lemma lstrip_head (s : str) (c : char) (t : str) :
  lstrip s = c :: t -> isspace c = false.
Proof.
  induction s as [|x s' IH]; [discriminate|]. cbn [lstrip].
  destruct (isspace x) eqn:E; [exact IH | now intros [= <- _]].
Qed.

Lemma strip_last (l : str) (c : char) (t : str) :
  rev (strip l) = c :: t -> isspace c = false.
Proof.
  unfold strip, rstrip. rewrite rev_involutive. apply lstrip_head.
Qed.

Lemma ends_in_number_sound (sn rs : str) (m : mstate) :
  go ENDS_IN_NUMBER (@Some _) (MState sn rs []) = Some m ->
  exists ds sp tl,
    rs = ds ++ sp ++ tl /\ ds <> [] /\ forallb is_digit ds = true
    /\ forallb isspace sp = true /\ (tl = [] \/ tl = [10%N]).
Proof.
  unfold ENDS_IN_NUMBER, seqs, digits_1_3, between, star, digit, ws. cbn [fold_right].
  cbn [go]. fold (go (Chr is_digit)). fold (go (Chr isspace)).
  intros H.
  change (rep_loop (go (Chr is_digit)) true 1 (Some 3)
            (fun st => rep_loop (go (Chr isspace)) true 0 None
                         (fun st0 => if at_eol st0 then Some st0 else None)
                         (length (rest st)) 0 st)
            (length rs) 0 (MState sn rs []) = Some m) in H.
  apply rep_loop_chr in H as (ds & post & H1 & H2 & H3 & H4).
  apply rep_loop_chr in H4 as (sp & tl & H5 & H6 & _ & H7).
  cbn [rest seen caps] in *.
  exists ds, sp, tl. repeat split; try assumption.
  - now rewrite H1, H5.
  - intros ->. cbn in H3. lia.
  - destruct (at_eol _) eqn:E; [|discriminate]. unfold at_eol in E. cbn [rest] in E.
    destruct tl as [|c [|c2 t2]]; [now left | | discriminate].
    apply N.eqb_eq in E. subst. now right.
Qed.

Lemma ends_in_number_complete (sn : str) (d : char) :
  is_digit d = true ->
  exists m, go ENDS_IN_NUMBER (@Some _) (MState sn [d] []) = Some m.
Proof.
  intros Hd. unfold ENDS_IN_NUMBER, seqs, digits_1_3, between, star, digit, ws.
  cbn. rewrite Hd. cbn. eauto.
Qed.

Lemma forallb_last {A} (p : A -> bool) (l : list A) (x : A) (t : list A) :
  forallb p l = true -> rev l = x :: t -> p x = true.
Proof.
  intros H Hr. rewrite forallb_forall in H. apply H.
  apply in_rev. rewrite Hr. now left.
Qed.

(** On a stripped line the search for the pattern finds a match exactly
    when the last character is a digit. *)
Lemma ends_in_number_spec (l : str) :
  is_some (re_search ENDS_IN_NUMBER (strip l)) = ends_with_digit (strip l).
Proof.
  unfold re_search, ends_with_digit.
  destruct (search_from ENDS_IN_NUMBER [] (strip l)) as [[i m]|] eqn:E.
  - apply search_from_some in E as (a & b & Hs & Hgo).
    apply ends_in_number_sound in Hgo as (ds & sp & tl & -> & Hds & Hd & Hsp & Htl).
    cbn [is_some]. rewrite Hs, !rev_app_distr.
    assert (Hlast : forall c t, rev (strip l) = c :: t -> isspace c = false)
      by apply strip_last.
    rewrite Hs, !rev_app_distr in Hlast.
    destruct Htl as [-> | ->].
    + cbn [rev app] in *. destruct (rev sp) as [|c t] eqn:Esp.
      * cbn [app] in *. destruct (rev ds) as [|c t] eqn:Eds.
        -- apply (f_equal (@rev _)) in Eds. rewrite rev_involutive in Eds.
           contradiction.
        -- cbn [app]. symmetry. now apply (forallb_last _ _ Hd Eds).
      * pose proof (forallb_last _ _ Hsp Esp) as Hc.
        specialize (Hlast c _ eq_refl). congruence.
    + cbn [rev app] in Hlast. specialize (Hlast 10%N _ eq_refl). discriminate.
  - cbn [is_some]. destruct (rev (strip l)) as [|c t] eqn:Er; [reflexivity|].
    destruct (is_digit c) eqn:Ed; [|reflexivity].
    destruct (@ends_in_number_complete (rev (rev t) ++ []) c Ed) as [m Hm].
    apply search_from_found in Hm. unfold re_search in *.
    apply (f_equal (@rev _)) in Er. rewrite rev_involutive in Er. cbn [rev] in Er.
    rewrite Er in E. rewrite E in Hm. discriminate.
Qed.

(** C10, as the code has it.  Let the line at the cursor reach the
    [AUTHOR_PAGE_TITLE] branch and yield an item there (the page is valid
    and the title has a letter).  The next line, stripped, is appended to
    the title, after the separator, and skipped by the cursor exactly when
    the section is not the one named [POEMS], a next line exists, its last
    character is not a digit, it is not a section header and its length is
    between 10 and 200; otherwise the item keeps its title and the cursor
    moves to the next line, which the following iteration handles like
    any other. *)
Theorem hanging_line_rule
  (brand : str) (lines : list str) (st : pstate) (m : mstate) (s : str) :
  let line := strip (nth (cur st) lines []) in
  let nxt := strip (nth (cur st + 1) lines []) in
  let page := int_of (group m "page") in
  let title := strip (group m "title") in
  let author := strip (group m "author") in
  let continues :=
    negb (str_eqb s POEMS) && (cur st + 1 <? length lines)
    && negb (ends_with_digit nxt)
    && negb (is_some (try_section brand nxt))
    && (10 <=? length nxt) && (length nxt <=? 200) in
  reaches_author_page_title brand (cur_section st) line = true ->
  guarded (re_match AUTHOR_PAGE_TITLE line) (cur_section st) = Some (m, s) ->
  valid_page page && has_alpha title = true ->
  step brand lines st =
    if continues
    then mkState (cur st + 2) (cur_section st) (section_pages st)
           (items st ++ [mkTocItem (Some page) (title ++ CONT_SEP ++ nxt)
                           (Some s) (Some author)])
    else mkState (cur st + 1) (cur_section st) (section_pages st)
           (items st ++ [mkTocItem (Some page) title (Some s) (Some author)]).
Proof.
  intros line nxt page title author continues Hreach Hm Hok.
  unfold continues, nxt. rewrite <- ends_in_number_spec.
  exact (hanging_line_appended_exactly_when brand lines st Hreach Hm Hok).
Qed.

(** The rule at a title with a hanging second line. *)
Lemma hanging_line_rule_witness :
  step (u "newyorker") hanging_lines hanging_state =
  mkState 2 (Some (u "FICTION")) [(u "FICTION", None)]
    [mkTocItem (Some 12%Z)
       (u "A reply to last week" ++ CONT_SEP ++ u "and a hanging line")
       (Some (u "FICTION")) (Some (u "Jane Doe"))].
Proof.
  refine (eq_trans
            (@hanging_line_rule (u "newyorker") hanging_lines
               hanging_state hanging_match (u "FICTION") _ _ _) _);
    vm_compute; reflexivity.
Defined.

(** C10, as stated, fails twice.  A next line that ends in the year 2024
    does not end in a number of one to three digits and meets every other
    condition of the claim, yet it is not appended: the code looks at the
    last digits only.  And in the poetry section of Harper's, [POETRY],
    the next line is appended: the code exempts the section named [POEMS]
    and no other. *)
Lemma hanging_line_claim_counterexample :
  (let nxt := strip (nth 1 year_lines []) in
   negb (str_eqb (u "FICTION") POEMS) = true
   /\ (1 <? length year_lines) = true
   /\ ends_in_one_to_three_digit_number nxt = false
   /\ try_section (u "newyorker") nxt = None
   /\ (10 <=? length nxt) && (length nxt <=? 200) = true
   /\ step (u "newyorker") year_lines hanging_state
      = mkState 1 (Some (u "FICTION")) [(u "FICTION", None)]
          [mkTocItem (Some 12%Z) (u "A reply to last week")
             (Some (u "FICTION")) (Some (u "Jane Doe"))])
  /\ (is_known_section_name (u "POETRY") (u "harpers") = true
      /\ step (u "harpers") hanging_lines poetry_state
         = mkState 2 (Some (u "POETRY")) [(u "POETRY", None)]
             [mkTocItem (Some 12%Z)
                (u "A reply to last week" ++ CONT_SEP ++ u "and a hanging line")
                (Some (u "POETRY")) (Some (u "Jane Doe"))]).
Proof. repeat split; vm_compute; reflexivity. Qed.

(** ** C2: the checks on an extracted candidate *)

(** C2, at a line the code accepts against the claim.  Under an open
    section the line [2024 ......... 34 - Maria Lopez] is taken by the
    first item shape, which checks the page only: the item is emitted with
    the title [2024], which has no letter. *)
Theorem title_without_letter_is_emitted :
  let text := u "ESSAY" ++ NL ++ u "2024 ......... 34 - Maria Lopez" in
  snd (parse text (u "harpers")) =
    [mkTocItem (Some 34%Z) (u "2024") (Some (u "ESSAY")) (Some (u "Maria Lopez"))]
  /\ has_alpha (u "2024") = false.
Proof. split; vm_compute; reflexivity. Qed.

(** The same happens in the other shapes that do not look at the letters of
    the title: title, author, leaders, page; title, leaders, page; title,
    spaces, page; and the quoted titles of [POEMS]. *)
Lemma other_shapes_emit_titles_without_letter :
  snd (parse (u "ESSAY" ++ NL ++ u "2024 - 7 ... 34") (u "harpers")) =
    [mkTocItem (Some 34%Z) (u "2024") (Some (u "ESSAY")) (Some (u "7"))]
  /\ snd (parse (u "ESSAY" ++ NL ++ u "2024 ... 34") (u "harpers")) =
       [mkTocItem (Some 34%Z) (u "2024") (Some (u "ESSAY")) None]
  /\ snd (parse (u "ESSAY" ++ NL ++ u "2024   34") (u "harpers")) =
       [mkTocItem (Some 34%Z) (u "2024") (Some (u "ESSAY")) None].
Proof. repeat split; vm_compute; reflexivity. Qed.

(** The page check, on the other hand, holds in every branch. *)
Lemma emitted_pages_are_valid (text brand : str) :
  Forall has_valid_page (snd (parse text brand)).
Proof.
  unfold parse. cbv zeta. cbn [snd]. apply dedupe_sort_valid, scan_items_valid.
Qed.

(** ** C3: a letters header followed by a reply *)

(** C3, as the code has it.  The sections in which no item is extracted are
    [CONTRIBUTORS] and [THE MAIL]; [LETTERS] is not one of them.  Where
    [LETTERS] is a section name (Harper's, and the unknown brand) the two
    lines record [LETTERS] with page 2 and the second line yields an item;
    where it is not (New Yorker, Atlantic) nothing is recorded and nothing
    is extracted.  The scenario of the claim is what happens with the
    header [THE MAIL    2] under the New Yorker vocabulary. *)
Theorem letters_section_is_not_suppressed :
  suppressed (Some (u "LETTERS")) = false
  /\ parse letters_text (u "harpers")
     = (None, [(u "LETTERS", Some 2%Z)], [reply_item (u "LETTERS")])
  /\ parse letters_text (u "auto")
     = (None, [(u "LETTERS", Some 2%Z)], [reply_item (u "LETTERS")])
  /\ parse letters_text (u "newyorker") = (None, [], [])
  /\ parse letters_text (u "atlantic") = (None, [], [])
  /\ suppressed (Some (u "THE MAIL")) = true
  /\ parse mail_text (u "newyorker") = (None, [(u "THE MAIL", Some 2%Z)], []).
Proof. repeat split; vm_compute; reflexivity. Qed.

(** C3, as stated, fails under each of the four brands: never is [LETTERS]
    recorded with page 2 while the second line yields no item. *)
Lemma letters_scenario_fails_for_every_brand :
  Forall (fun brand =>
            let '(_, sp, its) := parse letters_text brand in
            ~ (dict_get sp (u "LETTERS") = Some (Some 2%Z) /\ its = []))
    [u "newyorker"; u "atlantic"; u "harpers"; u "auto"].
Proof.
  repeat constructor; vm_compute; intros [H1 H2]; discriminate.
Qed.

(** ** C5: the summary block and the toggle for empty sections *)

(** A section is listed in the summary block whenever it is not hidden and
    either the toggle is off or no item is filed under it. *)
Lemma summary_block_lists
  (suppress_empty include_mail include_contributors : bool)
  (sp : dict) (its : list TocItem) (sec : str) (pg : option Z) :
  In (sec, pg) sp ->
  hidden include_mail include_contributors sec = false ->
  suppress_empty = false \/ by_sec its sec = [] ->
  In (section_line sec pg)
    (summary_block suppress_empty include_mail include_contributors sp its).
Proof.
  intros Hin Hh Hc. unfold summary_block. apply in_flat_map.
  exists (sec, pg). split; [assumption|]. rewrite Hh.
  destruct Hc as [-> | ->]; simpl; [now left|].
  rewrite andb_false_r. now left.
Qed.

(** C5, at a result where the code goes against the claim.  [FICTION] has
    an item and [GOINGS ON] has none.  With the toggle on (the default)
    the summary block lists [GOINGS ON] only, and with the toggle off it
    lists both: the section without items is listed under either setting,
    and the toggle decides about the section that has an item. *)
Theorem summary_toggle_drops_sections_with_items :
  let '(_, sp, its) := parse two_sections_text (u "newyorker") in
  sp = [(u "FICTION", Some 5%Z); (u "GOINGS ON", Some 3%Z)]
  /\ its = [mkTocItem (Some 12%Z) (u "A Story") (Some (u "FICTION")) (Some (u "Jane Doe"))]
  /\ summary_block true false false sp its = [u "GOINGS ON (p. 3)"]
  /\ summary_block false false false sp its = [u "FICTION (p. 5)"; u "GOINGS ON (p. 3)"].
Proof. vm_compute. repeat split. Qed.

(** ** C4: failures on the fall-back paths *)

(** C4, at an environment where the code goes against the claim: the text
    is sparse, the OCR tools are present, and [pdftoppm] fails.  Nothing
    catches its error, and the run ends with it. *)
Theorem pdftoppm_failure_ends_the_run :
  ocr_first_pages failing_ocr_world 3 = Raise CalledProcessError
  /\ main_result failing_ocr_world default_args = Raise CalledProcessError
  /\ main_plain failing_ocr_world default_args = Raise CalledProcessError.
Proof. repeat split; vm_compute; reflexivity. Qed.

(** The other fall-back failures are contained.  Missing OCR tools give
    the empty text. *)
Lemma missing_ocr_tools_give_nothing (w : World) (n : Z) :
  which w (u "pdftoppm") = false \/ which w (u "tesseract") = false ->
  ocr_first_pages w n = Return [].
Proof.
  intros [H | H]; unfold ocr_first_pages; rewrite H; simpl;
    [reflexivity | now rewrite orb_true_r].
Qed.

(** A [tesseract] run that fails on an image is skipped. *)
Lemma failed_tesseract_is_skipped (w : World) (img : str) (imgs parts : list str) :
  run_tesseract w img = Raise CalledProcessError ->
  ocr_images w (img :: imgs) parts = ocr_images w imgs parts.
Proof. intros H. simpl. now rewrite H. Qed.

(** The retry in raw mode lets no [Exception] through: when it cannot
    return, it is for a [SystemExit]. *)
Lemma raw_retry_contains_exceptions (w : World) (pages : Z) (brand : str)
  (r : ParseResult) (e : exn) :
  raw_retry w pages brand r = Raise e -> is_Exception e = false.
Proof.
  unfold raw_retry.
  destruct (negb (str_eqb brand (u "harpers")) && (item_count r <? 4)); [|discriminate].
  destruct (pdftotext_extract w pages (u "raw")) as [out | e'] eqn:E; simpl.
  - discriminate.
  - destruct (is_Exception e') eqn:Ee; [discriminate|]. now intros [= <-].
Qed.

(** A failed retry keeps the result of the first pass. *)
Lemma failed_raw_retry_keeps_result (w : World) (pages : Z) (brand : str)
  (r : ParseResult) (e : exn) :
  pdftotext_extract w pages (u "raw") = Raise e -> is_Exception e = true ->
  raw_retry w pages brand r = Return r.
Proof.
  intros H He. unfold raw_retry.
  destruct (negb (str_eqb brand (u "harpers")) && (item_count r <? 4)); [|reflexivity].
  rewrite H. simpl. now rewrite He.
Qed.

(** ** C9: the raw-mode result replaces the layout-mode result as a whole *)

(** C9. For a brand other than Harper's, let the first pass over the
    layout-mode text yield fewer than four items and let the raw-mode
    acquisition succeed.  If the parse of the raw-mode text has strictly
    more items, [main] goes on with that parse result as it is, issue
    title, section pages and items; if it has as many or fewer, [main]
    goes on with the layout-mode result as it is. *)
Theorem raw_result_replaces_whole (w : World) (a : Args) (text out : str) :
  let brand := resolve_brand w a text in
  let r1 := parse text brand in
  let r2 := parse (normalize (dehyphenate out)) brand in
  pdf_exists w = true ->
  initial_text w a = Return text ->
  str_eqb brand (u "harpers") = false ->
  item_count r1 < 4 ->
  pdftotext_extract w (arg_pages a) (u "raw") = Return out ->
  (item_count r1 < item_count r2 -> main_result w a = Return r2)
  /\ (item_count r2 <= item_count r1 -> main_result w a = Return r1).
Proof.
  intros brand r1 r2 Hpdf Htext Hbrand Hfew Hraw.
  assert (Hmain : main_result w a
                  = Return (if item_count r1 <? item_count r2 then r2 else r1)).
  { unfold main_result. rewrite Hpdf, Htext. cbn [negb bind].
    fold brand. rewrite Hbrand. cbn [bind]. fold r1.
    unfold raw_retry. rewrite Hbrand.
    apply Nat.ltb_lt in Hfew. rewrite Hfew. cbn [negb andb].
    rewrite Hraw. cbn [bind try_except]. reflexivity. }
  split; intros H; rewrite Hmain.
  - apply Nat.ltb_lt in H. now rewrite H.
  - apply Nat.ltb_ge in H. now rewrite H.
Qed.

Lemma raw_result_replaces_whole_witness :
  item_count (parse layout_text (u "newyorker")) = 3
  /\ item_count (parse raw_text (u "newyorker")) = 7
  /\ main_result two_renderings_world default_args
     = Return (parse raw_text (u "newyorker")).
Proof.
  split; [vm_compute; reflexivity|]. split; [vm_compute; reflexivity|].
  refine (eq_trans
            (proj1 (@raw_result_replaces_whole two_renderings_world default_args
                      layout_text raw_text _ _ _ _ _) _) _);
    vm_compute; try reflexivity; lia.
Defined.

(* ================================================================= *)
(** * Further properties of the parser *)

(** ** Section headers *)

Lemma startswith_nonempty (s k : str) :
  nonempty k = true -> startswith s k = true -> nonempty s = true.
Proof. destruct k, s; simpl; congruence. Qed.

Lemma known_keys_nonempty :
  forallb nonempty (NY_SECTIONS ++ ATL_SECTIONS ++ HARPERS_SECTIONS) = true.
Proof. vm_compute. reflexivity. Qed.

Lemma known_in_some_list (name brand : str) :
  is_known_section_name name brand = true ->
  existsb (startswith (upper (strip name)))
    (NY_SECTIONS ++ ATL_SECTIONS ++ HARPERS_SECTIONS) = true.
Proof.
  unfold is_known_section_name. rewrite !existsb_app.
  destruct (str_eqb brand (u "newyorker")); [intros ->; reflexivity|].
  destruct (str_eqb brand (u "atlantic")); [intros ->; now rewrite orb_true_r|].
  destruct (str_eqb brand (u "harpers")).
  - destruct (contains (u "HARPER") (upper (strip name))
              && contains (u "INDEX") (upper (strip name))); [discriminate|].
    destruct (str_eqb _ (u "FINDINGS")); [discriminate|].
    intros ->. now rewrite !orb_true_r.
  - intros H. exact H.
Qed.

Lemma known_name_nonempty (name brand : str) :
  is_known_section_name name brand = true -> nonempty name = true.
Proof.
  intros H. apply known_in_some_list in H.
  apply existsb_exists in H as (k & Hk & Hs).
  assert (Hn : nonempty k = true).
  { pose proof known_keys_nonempty as Hall. rewrite forallb_forall in Hall. now apply Hall. }
  pose proof (startswith_nonempty _ _ Hn Hs) as HU.
  destruct name as [|c t]; [|reflexivity]. discriminate HU.
Qed.

Lemma try_section_known (brand line name : str) (pg : option Z) :
  try_section brand line = Some (name, pg) ->
  is_known_section_name name brand = true
  /\ nonempty name = true
  /\ (forall p, pg = Some p -> valid_page p = true).
Proof.
  intros H.
  assert (Hk : is_known_section_name name brand = true
               /\ (forall p, pg = Some p -> valid_page p = true)).
  { unfold try_section, orelse in H.
    repeat match goal with
           | H : context [match ?x with _ => _ end] |- _ => destruct x eqn:?
           end;
      try discriminate;
      repeat match goal with
             | H : Some _ = Some _ |- _ => inversion H; clear H; subst
             end;
      (split; [assumption | intros p Hp; inversion Hp; subst; assumption]). }
  destruct Hk as [Hk Hp]. repeat split; try assumption.
  now apply known_name_nonempty with brand.
Qed.

(** X1. What [try_section] answers is a section name of the brand's
    vocabulary, not empty, and the page that comes with it, if any, is
    between 1 and 999. *)
Theorem try_section_sound (brand line name : str) (pg : option Z) :
  try_section brand line = Some (name, pg) ->
  is_known_section_name name brand = true
  /\ nonempty name = true
  /\ (forall p, pg = Some p -> valid_page p = true).
Proof. apply try_section_known. Qed.

Lemma try_section_sound_witness :
  is_known_section_name (u "THE TALK OF THE TOWN") (u "newyorker") = true
  /\ nonempty (u "THE TALK OF THE TOWN") = true
  /\ (forall p, Some 15%Z = Some p -> valid_page p = true).
Proof.
  apply (@try_section_sound (u "newyorker") (u "15 THE TALK OF THE TOWN")).
  vm_compute. reflexivity.
Defined.

(** ** One iteration, by cases *)

Lemma guarded_some (m : option mstate) (sec : option str) (m' : mstate) (s : str) :
  guarded m sec = Some (m', s) -> sec = Some s /\ nonempty s = true.
Proof.
  unfold guarded. destruct m as [m0|]; [|discriminate].
  destruct sec as [s0|]; [|discriminate].
  destruct (nonempty s0) eqn:E; [|discriminate].
  intros [= _ <-]. now split.
Qed.

Lemma quoted_items_section (sec : str) (ms : list mstate) :
  Forall (fun it => section it = Some sec /\ has_valid_page it) (quoted_items sec ms).
Proof.
  unfold quoted_items. induction ms as [|m t IH]; simpl; [constructor|].
  apply Forall_app. split; [|assumption].
  destruct (valid_page (int_of (group m "3"))) eqn:E; constructor; [|constructor].
  split; [reflexivity|]. eexists. split; [reflexivity | exact E].
Qed.

Section StepCases.

Variables (brand : str) (lines : list str).

Lemma case_append (b : bool) (p : Z) (t s : str) (a : option str) (st : pstate) :
  cur_section st = Some s -> nonempty s = true -> suppressed (Some s) = false ->
  (b = true -> valid_page p = true) ->
  step_case brand lines st (advance (append_if b (mkTocItem (Some p) t (Some s) a) st)).
Proof.
  intros Hs Hn Hsup Hb. destruct b; simpl; [|apply case_skip].
  apply (@case_items brand lines st s [mkTocItem (Some p) t (Some s) a] (S (cur st)));
    try assumption; [|now left].
  repeat constructor. exists p. split; [reflexivity | now apply Hb].
Qed.

Lemma case_append_item (cur' : nat) (p : Z) (t s : str) (a : option str) (st : pstate) :
  cur_section st = Some s -> nonempty s = true -> suppressed (Some s) = false ->
  valid_page p = true ->
  cur' = S (cur st) \/ (cur' = S (S (cur st)) /\ S (cur st) < length lines) ->
  step_case brand lines st
    (mkState cur' (cur_section st) (section_pages st)
       (items st ++ [mkTocItem (Some p) t (Some s) a])).
Proof.
  intros Hs Hn Hsup Hp Hc.
  apply (@case_items brand lines st s [mkTocItem (Some p) t (Some s) a] cur');
    try assumption.
  repeat constructor. exists p. now split.
Qed.

Lemma step_in_cases (st : pstate) : step_case brand lines st (step brand lines st).
Proof.
  unfold step. cbv zeta.
  repeat
    match goal with
    | |- step_case _ _ _ (advance ?s) =>
        match s with st => apply case_skip end
    | |- step_case _ _ _ (if ?b then _ else _) => destruct b eqn:?
    | |- step_case _ _ _ (match ?x with _ => _ end) => destruct x eqn:?
    end;
    repeat match goal with
           | H : guarded _ _ = Some _ |- _ => apply guarded_some in H as [? ?]
           end.
  all: try (apply case_append; try assumption; try congruence;
            rewrite ?andb_true_iff; tauto).
  - now apply case_header.
  - unfold advance, append_item; cbn [cur cur_section section_pages items].
    apply case_append_item; try assumption; try congruence.
    + match goal with H : valid_page _ && _ = true |- _ => apply andb_true_iff in H; tauto end.
    + right. split; [reflexivity|].
      match goal with
      | H : negb _ && (_ <? _) = true |- _ =>
          apply andb_true_iff in H as [_ H]; apply Nat.ltb_lt in H; lia
      end.
  - unfold advance, append_item; cbn [cur cur_section section_pages items].
    apply case_append_item; try assumption; try congruence; [|now left].
    match goal with H : valid_page _ && _ = true |- _ => apply andb_true_iff in H; tauto end.
  - unfold advance, append_item; cbn [cur cur_section section_pages items].
    apply case_append_item; try assumption; try congruence; [|now left].
    match goal with H : valid_page _ && _ = true |- _ => apply andb_true_iff in H; tauto end.
  - unfold advance; cbn [cur cur_section section_pages items].
    match goal with
    | H : cur_section st = Some ?s, Hp : str_eqb ?s POEMS && _ && _ = true |- _ =>
        rewrite <- H;
        apply andb_true_iff in Hp as [Hp _]; apply andb_true_iff in Hp as [Hp _];
        apply str_eqb_eq in Hp;
        apply (@case_items brand lines st s
                 (quoted_items s (findall QUOTED_TITLE_RE (strip (nth (cur st) lines []))))
                 (S (cur st)));
        [assumption | now rewrite Hp | assumption | apply quoted_items_section | now left]
    end.
Qed.

End StepCases.

(** ** The section map as a dictionary *)

Lemma dict_get_none (d : dict) (k : str) : dict_get d k = None <-> ~ In k (keys d).
Proof.
  induction d as [|[k' v] t IH]; simpl; [tauto|].
  destruct (str_eqb k k') eqn:E.
  - apply str_eqb_eq in E. subst. split; [discriminate | intros H; exfalso; apply H; now left].
  - rewrite IH. split.
    + intros H [Hk | Hk]; [|contradiction].
      subst. rewrite str_eqb_refl in E. discriminate.
    + intros H Hk. apply H. now right.
Qed.

Lemma keys_dict_set (d : dict) (k : str) (v : option Z) :
  keys (dict_set d k v) = if existsb (str_eqb k) (keys d) then keys d else keys d ++ [k].
Proof.
  induction d as [|[k' v'] t IH]; simpl; [reflexivity|].
  destruct (str_eqb k k') eqn:E; simpl; [reflexivity|].
  rewrite IH. now destruct (existsb (str_eqb k) (keys t)).
Qed.

Lemma key_test (k : str) (l : list str) : existsb (str_eqb k) l = true <-> In k l.
Proof.
  rewrite existsb_exists. split.
  - intros (x & Hin & Heq). apply str_eqb_eq in Heq. now subst.
  - intros Hin. exists k. split; [assumption | apply str_eqb_refl].
Qed.

Lemma dict_set_forall (P : str * option Z -> Prop) (d : dict) (k : str) (v : option Z) :
  Forall P d -> P (k, v) -> Forall P (dict_set d k v).
Proof.
  intros Hd Hk. induction Hd as [|[k' v'] t Hx Ht IH]; simpl; [now repeat constructor|].
  destruct (str_eqb k k') eqn:E.
  - apply str_eqb_eq in E. subst. now constructor.
  - now constructor.
Qed.

Lemma dict_set_keeps_keys (d : dict) (k s : str) (v : option Z) :
  In s (keys d) -> In s (keys (dict_set d k v)).
Proof.
  intros H. rewrite keys_dict_set. destruct (existsb (str_eqb k) (keys d)); [assumption|].
  apply in_or_app. now left.
Qed.

Lemma dict_set_has_key (d : dict) (k : str) (v : option Z) : In k (keys (dict_set d k v)).
Proof.
  rewrite keys_dict_set. destruct (existsb (str_eqb k) (keys d)) eqn:E.
  - now apply key_test.
  - apply in_or_app. right. now left.
Qed.

Lemma dict_set_nodup (d : dict) (k : str) (v : option Z) :
  NoDup (keys d) -> NoDup (keys (dict_set d k v)).
Proof.
  intros H. rewrite keys_dict_set. destruct (existsb (str_eqb k) (keys d)) eqn:E; [assumption|].
  apply NoDup_app; [assumption | repeat constructor; intros [] |].
  intros x Hx [<- | []]. apply key_test in Hx. congruence.
Qed.

Lemma enter_section_ok (brand name : str) (pg : option Z) (st : pstate) :
  is_known_section_name name brand = true ->
  (forall p, pg = Some p -> valid_page p = true) ->
  sections_ok brand (section_pages st) ->
  sections_ok brand (section_pages (enter_section name pg st)).
Proof.
  intros Hk Hp [Hnd Hall]. unfold enter_section. cbn [section_pages].
  assert (Hset : sections_ok brand (dict_set (section_pages st) name pg)).
  { split; [now apply dict_set_nodup | now apply dict_set_forall]. }
  destruct (dict_get (section_pages st) name) as [[q|]|]; try assumption. now split.
Qed.

Lemma enter_section_keys (name s : str) (pg : option Z) (st : pstate) :
  In s (keys (section_pages st)) \/ s = name ->
  In s (keys (section_pages (enter_section name pg st))).
Proof.
  unfold enter_section. cbn [section_pages].
  destruct (dict_get (section_pages st) name) as [[q|]|] eqn:E; intros [H | ->];
    try (now apply dict_set_keeps_keys); try apply dict_set_has_key; try assumption.
  destruct (in_dec (list_eq_dec N.eq_dec) name (keys (section_pages st))) as [Hin | Hn];
    [assumption|].
  apply dict_get_none in Hn. congruence.
Qed.

(** ** The invariant of the scan *)

Lemma filed_in_more (sp sp' : dict) (it : TocItem) :
  (forall s, In s (keys sp) -> In s (keys sp')) -> filed_in sp it -> filed_in sp' it.
Proof. intros H (s & H1 & H2 & H3 & H4). exists s. auto. Qed.

Section ScanInvariant.

Variables (brand : str) (lines : list str).

Lemma step_keeps_inv (st : pstate) :
  scan_inv brand st -> scan_inv brand (step brand lines st).
Proof.
  intros (Hok & Hcur & Hits).
  destruct (step_in_cases brand lines st) as [name pg Hts | | s new cur' Hs Hn Hsup Hnew Hc].
  - apply try_section_known in Hts as (Hk & _ & Hp).
    split; [|split]; cbn [advance section_pages cur_section items].
    + now apply enter_section_ok.
    + unfold enter_section at 1. cbn [cur_section]. intros s [= <-].
      apply enter_section_keys. now right.
    + eapply Forall_impl; [|exact Hits]. intros it. apply filed_in_more.
      intros s Hin. apply enter_section_keys. now left.
  - split; [|split]; assumption.
  - split; [|split]; cbn [section_pages cur_section items]; try assumption.
    apply Forall_app. split; [assumption|].
    eapply Forall_impl; [|exact Hnew]. intros it [Hsec _].
    exists s. repeat split; try assumption. now apply Hcur.
Qed.

Lemma loop_keeps_inv (fuel : nat) (st : pstate) :
  scan_inv brand st -> scan_inv brand (loop brand lines fuel st).
Proof.
  revert st; induction fuel as [|f IH]; intros st H; simpl; [assumption|].
  destruct (cur st <? length lines); [|assumption].
  apply IH. now apply step_keeps_inv.
Qed.

Lemma scan_has_inv : scan_inv brand (scan brand lines).
Proof.
  apply loop_keeps_inv. split; [|split]; simpl.
  - split; constructor.
  - discriminate.
  - constructor.
Qed.

(** The cursor: an iteration that starts inside the lines ends inside them
    or just behind the last one. *)
Lemma step_cursor (st : pstate) :
  cur st < length lines ->
  cur st < cur (step brand lines st) <= length lines.
Proof.
  intros H. destruct (step_in_cases brand lines st) as [| | ? ? ? ? ? ? ? [-> | [-> ?]]];
    simpl; lia.
Qed.

Lemma loop_more_fuel (fuel : nat) (st : pstate) :
  length lines - cur st <= fuel ->
  loop brand lines (S fuel) st = loop brand lines fuel st.
Proof.
  revert st; induction fuel as [|f IH]; intros st Hf.
  - simpl. destruct (cur st <? length lines) eqn:E; [|reflexivity].
    apply Nat.ltb_lt in E. lia.
  - change (loop brand lines (S (S f)) st)
      with (if cur st <? length lines then loop brand lines (S f) (step brand lines st) else st).
    change (loop brand lines (S f) st)
      with (if cur st <? length lines then loop brand lines f (step brand lines st) else st).
    destruct (cur st <? length lines) eqn:E; [|reflexivity].
    apply Nat.ltb_lt in E. apply IH. pose proof (step_cursor st E). lia.
Qed.

Lemma loop_cursor (fuel : nat) (st : pstate) :
  cur st <= length lines ->
  length lines - cur st <= fuel ->
  cur (loop brand lines fuel st) = length lines.
Proof.
  revert st; induction fuel as [|f IH]; intros st Hle Hf; simpl; [lia|].
  destruct (cur st <? length lines) eqn:E.
  - apply Nat.ltb_lt in E. pose proof (step_cursor st E). apply IH; lia.
  - apply Nat.ltb_ge in E. lia.
Qed.

End ScanInvariant.

(** ** What every result of [parse] satisfies *)

(** X2. In every result of [parse] the section map has each name once,
    every name is a section name of the brand's vocabulary, and every page
    recorded is between 1 and 999. *)
Theorem parse_sections_known (text brand : str) :
  let sp := snd (fst (parse text brand)) in
  NoDup (keys sp)
  /\ Forall (fun kv => is_known_section_name (fst kv) brand = true
                       /\ forall p, snd kv = Some p -> valid_page p = true) sp.
Proof.
  unfold parse. cbv zeta. cbn [fst snd]. apply scan_has_inv.
Qed.

Lemma dedupe_sort_in (its : list TocItem) (it : TocItem) :
  In it (dedupe_sort its) -> In it its.
Proof.
  intros Hin.
  apply (Permutation_in _ (stable_sort_perm key_ltb sort_key (dedupe its))) in Hin.
  now apply dedupe_from_in in Hin.
Qed.

Lemma parse_items_filed_in (text brand : str) :
  Forall (filed_in (snd (fst (parse text brand)))) (snd (parse text brand)).
Proof.
  unfold parse. cbv zeta. cbn [fst snd].
  match goal with |- context [scan brand ?l] => set (lines := l) end.
  destruct (scan_has_inv brand lines) as (_ & _ & Hits).
  rewrite Forall_forall in *. intros it Hin.
  apply dedupe_sort_in in Hin. exact (Hits it Hin).
Qed.

(** X3. Every item of a result of [parse] is filed under a section: its
    section is a name, not empty, that is a key of the section map of the
    same result, and it is neither [CONTRIBUTORS] nor [THE MAIL]. *)
Theorem parse_items_filed (text brand : str) :
  let sp := snd (fst (parse text brand)) in
  Forall (fun it => exists s, section it = Some s /\ nonempty s = true
                      /\ suppressed (Some s) = false /\ In s (keys sp))
    (snd (parse text brand)).
Proof. exact (parse_items_filed_in text brand). Qed.

Lemma not_suppressed_kept (im ic : bool) (it : TocItem) (s : str) :
  section it = Some s -> suppressed (Some s) = false -> keep_item im ic it = true.
Proof.
  intros Hs Hsup. unfold keep_item, section_is. rewrite Hs.
  unfold suppressed in Hsup. apply orb_false_iff in Hsup as [Hc Hm].
  unfold THE_MAIL, CONTRIBUTORS. now rewrite Hc, Hm.
Qed.

Lemma parsed_items_all_kept (text brand : str) (im ic : bool) :
  filter (keep_item im ic) (snd (parse text brand)) = snd (parse text brand).
Proof.
  pose proof (parse_items_filed_in text brand) as H.
  rewrite Forall_forall in H. apply forallb_filter_id. apply forallb_forall.
  intros it Hin. destruct (H it Hin) as (s & Hs & _ & Hsup & _).
  now apply not_suppressed_kept with s.
Qed.

(** X4. The item filter of [format_plain] removes nothing from a result of
    [parse], whatever [include_mail] and [include_contributors] are: the
    parser has no items in the two sections the filter looks for. *)
Theorem format_filter_keeps_parsed_items
  (text brand : str) (include_mail include_contributors : bool) :
  filter (keep_item include_mail include_contributors) (snd (parse text brand))
  = snd (parse text brand).
Proof. apply parsed_items_all_kept. Qed.

(** ** A scan that meets no section header *)

Lemma loop_without_header (brand : str) (lines : list str) (fuel : nat) (st : pstate) :
  (forall line, In line lines -> try_section brand (strip line) = None) ->
  cur_section st = None ->
  cur_section (loop brand lines fuel st) = None
  /\ section_pages (loop brand lines fuel st) = section_pages st
  /\ items (loop brand lines fuel st) = items st.
Proof.
  intros Hno. revert st. induction fuel as [|f IH]; intros st Hsec; simpl; [auto|].
  destruct (cur st <? length lines) eqn:E; [|auto].
  apply Nat.ltb_lt in E.
  assert (Hst : cur_section (step brand lines st) = None
                /\ section_pages (step brand lines st) = section_pages st
                /\ items (step brand lines st) = items st).
  { destruct (step_in_cases brand lines st) as [name pg Hts | | s new cur' Hs].
    - rewrite Hno in Hts; [discriminate | now apply nth_In].
    - auto.
    - congruence. }
  destruct Hst as (H1 & H2 & H3). destruct (IH _ H1) as (H4 & H5 & H6).
  repeat split; congruence.
Qed.

(** X5. Items are extracted under a section only.  If no line of the input
    is a section header, the scan ends with no section, an empty section
    map and no items, whatever the lines look like. *)
Theorem scan_without_header (brand : str) (lines : list str) :
  (forall line, In line lines -> try_section brand (strip line) = None) ->
  cur_section (scan brand lines) = None
  /\ section_pages (scan brand lines) = []
  /\ items (scan brand lines) = [].
Proof. intros H. now apply loop_without_header. Qed.

Lemma scan_without_header_witness :
  let lines := [u "Jane Doe   A reply to last week   5"; u "Winter Light ..... 11"] in
  cur_section (scan (u "newyorker") lines) = None
  /\ section_pages (scan (u "newyorker") lines) = []
  /\ items (scan (u "newyorker") lines) = [].
Proof.
  intros lines. apply scan_without_header.
  intros line [<- | [<- | []]]; vm_compute; reflexivity.
Defined.

(** ** The loop ends *)

(** X6. The scan reads every line and stops: the cursor ends exactly at the
    number of lines (the look-ahead never steps over a line that is not
    there), and running the loop for longer changes nothing. *)
Theorem scan_reads_all_lines (brand : str) (lines : list str) :
  cur (scan brand lines) = length lines
  /\ forall more, loop brand lines (length lines + more) init_state = scan brand lines.
Proof.
  split.
  - apply loop_cursor; simpl; lia.
  - intros more. induction more as [|n IH]; [now rewrite Nat.add_0_r|].
    rewrite Nat.add_succ_r, loop_more_fuel; [exact IH | simpl; lia].
Qed.

(** ** More on de-duplication and the sort *)

Section Stability.

Variables (A K : Type) (ltb : K -> K -> bool) (key : A -> K) (keqb : K -> K -> bool).
Hypothesis ltb_asym : forall a b, ltb a b = true -> ltb b a = false.
Hypothesis keqb_eq : forall a b, keqb a b = true <-> a = b.

Lemma insert_sorted_filter (k : K) (x : A) (l : list A) :
  filter (fun y => keqb (key y) k) (insert_sorted ltb key x l)
  = filter (fun y => keqb (key y) k) (x :: l).
Proof.
  induction l as [|y t IH]; [reflexivity|].
  cbn [insert_sorted]. destruct (ltb (key y) (key x)) eqn:E; [|reflexivity].
  cbn [filter] in *. rewrite IH.
  destruct (keqb (key x) k) eqn:Ex; [|reflexivity].
  destruct (keqb (key y) k) eqn:Ey; [|reflexivity].
  apply keqb_eq in Ex, Ey. rewrite Ex, <- Ey in E.
  pose proof (ltb_asym E). congruence.
Qed.

Lemma stable_sort_filter (k : K) (l : list A) :
  filter (fun y => keqb (key y) k) (stable_sort ltb key l)
  = filter (fun y => keqb (key y) k) l.
Proof.
  induction l as [|x t IH]; [reflexivity|].
  cbn [stable_sort fold_right]. rewrite insert_sorted_filter.
  cbn [filter]. fold (stable_sort ltb key t). now rewrite IH.
Qed.

End Stability.

Lemma sort_key_eqb_eq (a b : Z * str * str) : sort_key_eqb a b = true <-> a = b.
Proof.
  unfold sort_key_eqb. rewrite <- key_compare_eq.
  destruct (key_compare a b); split; congruence.
Qed.

Lemma key_le_trans (a b c : TocItem) : key_le a b -> key_le b c -> key_le a c.
Proof.
  unfold key_le. intros Hab Hbc.
  destruct (key_compare (sort_key a) (sort_key b)) eqn:E1; [| |congruence].
  - apply key_compare_eq in E1. now rewrite E1.
  - destruct (key_compare (sort_key b) (sort_key c)) eqn:E2; [| |congruence].
    + apply key_compare_eq in E2. rewrite <- E2, E1. discriminate.
    + rewrite (key_compare_lt_trans _ _ _ E1 E2). discriminate.
Qed.

Lemma before_is_key_le (a b : TocItem) : before key_ltb sort_key a b -> key_le a b.
Proof.
  unfold before, key_ltb, key_le. rewrite (key_compare_antisym (sort_key a) (sort_key b)).
  destruct (key_compare (sort_key a) (sort_key b)); simpl; congruence.
Qed.

(** X7. For every item list, with or without pages, the de-duplicated and
    sorted list is in order: no item sorts after one that follows it, the
    key being the page (999 for none), the section and the lowercased
    title.  It has the items the de-duplication kept, and no others. *)
Theorem dedupe_sort_in_order (its : list TocItem) :
  StronglySorted key_le (dedupe_sort its)
  /\ Permutation (dedupe_sort its) (dedupe its).
Proof.
  split; [|apply stable_sort_perm].
  apply Sorted_StronglySorted; [exact key_le_trans|].
  assert (H : Sorted (before key_ltb sort_key) (dedupe_sort its))
    by (apply stable_sort_sorted; exact key_ltb_asym).
  induction H as [|x l Hl IH Hx]; constructor; [assumption|].
  destruct Hx; constructor. now apply before_is_key_le.
Qed.

(** X8. The sort is stable.  Items that tie in the sort key come out in the
    order the de-duplication left them in; for every key, the items with
    that key are the same list before and after sorting. *)
Theorem sort_keeps_ties_in_order (its : list TocItem) (k : Z * str * str) :
  filter (fun it => sort_key_eqb (sort_key it) k) (sort_items its)
  = filter (fun it => sort_key_eqb (sort_key it) k) its.
Proof.
  apply stable_sort_filter; [exact key_ltb_asym | exact sort_key_eqb_eq].
Qed.

Lemma dedupe_from_subsequence (seen : list (option Z * str * str)) (its : list TocItem) :
  subsequence (dedupe_from seen its) its.
Proof.
  revert seen; induction its as [|x t IH]; intros seen; simpl; [constructor|].
  destruct (existsb (key_eqb (dedup_key x)) seen); constructor; apply IH.
Qed.

Lemma subsequence_length {A} (l l' : list A) : subsequence l l' -> length l <= length l'.
Proof. induction 1; simpl; lia. Qed.

(** X9. The de-duplication is order-stable and only leaves items out: its
    result is the input with the later duplicates removed, the kept items
    in their input order; so no result has more items than the input. *)
Theorem dedupe_is_subsequence (its : list TocItem) :
  subsequence (dedupe its) its
  /\ length (dedupe_sort its) <= length its.
Proof.
  split; [apply dedupe_from_subsequence|].
  unfold dedupe_sort, sort_items.
  rewrite (Permutation_length (stable_sort_perm key_ltb sort_key (dedupe its))).
  apply subsequence_length, dedupe_from_subsequence.
Qed.

(** ** Cleanup *)

Lemma normalize_char_plain (c : char) : typographic (normalize_char c) = false.
Proof.
  unfold normalize_char, typographic.
  destruct (N.eqb c EM_DASH) eqn:E1; [reflexivity|].
  destruct (N.eqb c RSQUO) eqn:E2; [reflexivity|].
  destruct (N.eqb c 8220) eqn:E3; [reflexivity|].
  destruct (N.eqb c 8221) eqn:E4; [reflexivity|].
  destruct (N.eqb c 160) eqn:E5; [reflexivity|].
  now rewrite E1, E2, E3, E4, E5.
Qed.

Lemma normalize_char_fixed (c : char) : typographic c = false -> normalize_char c = c.
Proof.
  unfold typographic, normalize_char. intros H.
  repeat (apply orb_false_iff in H as [H ?]).
  repeat match goal with E : N.eqb _ _ = false |- _ => rewrite E; clear E end.
  reflexivity.
Qed.

(** X10. [normalize] leaves none of the five typographic characters in the
    text, keeps its length, changes nothing in a text without them, and so
    does nothing when applied a second time. *)
Theorem normalize_removes_typographic (text : str) :
  forallb (fun c => negb (typographic c)) (normalize text) = true
  /\ length (normalize text) = length text
  /\ (forallb (fun c => negb (typographic c)) text = true -> normalize text = text)
  /\ normalize (normalize text) = normalize text.
Proof.
  assert (H1 : forallb (fun c => negb (typographic c)) (normalize text) = true).
  { unfold normalize. apply forallb_forall. intros c Hc.
    apply in_map_iff in Hc as (c0 & <- & _). now rewrite normalize_char_plain. }
  assert (H3 : forall t, forallb (fun c => negb (typographic c)) t = true -> normalize t = t).
  { intros t Ht. unfold normalize. rewrite forallb_forall in Ht.
    rewrite <- (map_id t) at 2. apply map_ext_in. intros c Hc.
    apply normalize_char_fixed. specialize (Ht c Hc). now apply negb_true_iff in Ht. }
  repeat split; auto. apply length_map.
Qed.

Lemma join_hyphenated_eq (c c2 : char) (t2 : str) :
  join_hyphenated (c :: c2 :: t2)
  = if N.eqb c 45 && N.eqb c2 10
       && match t2 with c3 :: _ => is_lower_az c3 | [] => false end
    then join_hyphenated t2
    else c :: join_hyphenated (c2 :: t2).
Proof. reflexivity. Qed.

Lemma join_hyphenated_shorter (n : nat) (s : str) :
  length s <= n -> length (join_hyphenated s) <= length s.
Proof.
  revert s; induction n as [|n IH]; intros s Hn.
  - destruct s; simpl in *; lia.
  - destruct s as [|c [|c2 t2]]; [simpl; lia | simpl; lia |].
    rewrite join_hyphenated_eq.
    destruct (N.eqb c 45 && N.eqb c2 10
              && match t2 with c3 :: _ => is_lower_az c3 | [] => false end).
    + cbn [length] in *. specialize (IH t2). lia.
    + cbn [length] in *. specialize (IH (c2 :: t2)). cbn [length] in IH. lia.
Qed.

Lemma join_wrapped_length (prev : option char) (s : str) :
  length (join_wrapped prev s) = length s.
Proof. revert prev; induction s as [|c t IH]; intros prev; simpl; [|rewrite IH]; reflexivity. Qed.

Lemma join_hyphenated_one_line (n : nat) (s : str) :
  length s <= n -> forallb (fun c => negb (N.eqb c 10)) s = true -> join_hyphenated s = s.
Proof.
  revert s; induction n as [|n IH]; intros s Hn Hs.
  - destruct s; [reflexivity | simpl in Hn; lia].
  - destruct s as [|c [|c2 t2]]; try reflexivity.
    rewrite join_hyphenated_eq. cbn [forallb] in Hs.
    apply andb_true_iff in Hs as [Hc Hs]. pose proof Hs as Hs'.
    apply andb_true_iff in Hs' as [Hc2 _]. apply negb_true_iff in Hc2.
    rewrite Hc2, andb_false_r. cbn [andb]. f_equal.
    apply IH; [cbn [length] in *; lia | exact Hs].
Qed.

Lemma join_wrapped_one_line (prev : option char) (s : str) :
  forallb (fun c => negb (N.eqb c 10)) s = true -> join_wrapped prev s = s.
Proof.
  revert prev; induction s as [|c t IH]; intros prev Hs; [reflexivity|].
  cbn [forallb] in Hs. apply andb_true_iff in Hs as [Hc Hs]. apply negb_true_iff in Hc.
  cbn [join_wrapped]. rewrite Hc. cbn [andb]. f_equal. now apply IH.
Qed.

(** X11. [dehyphenate] never makes a text longer, and a text without a
    newline goes through it unchanged. *)
Theorem dehyphenate_only_joins_lines (text : str) :
  length (dehyphenate text) <= length text
  /\ (forallb (fun c => negb (N.eqb c 10)) text = true -> dehyphenate text = text).
Proof.
  unfold dehyphenate. split.
  - rewrite join_wrapped_length. now apply join_hyphenated_shorter with (length text).
  - intros H. rewrite (join_hyphenated_one_line (n := length text)); auto.
    now apply join_wrapped_one_line.
Qed.

Lemma join_wrapped_head_lower (prev : option char) (s : str) (c : char) :
  nth_error (join_wrapped prev s) 0 = Some c -> is_lower_az c = true ->
  nth_error s 0 = Some c.
Proof.
  destruct s as [|x t]; [discriminate|]. cbn [join_wrapped nth_error].
  match goal with |- context [if ?b then _ else _] => destruct b end;
    intros [= <-] H; [discriminate H | reflexivity].
Qed.

Lemma join_wrapped_breaks (prev : option char) (s : str) (i : nat) (c : char) :
  nth_error (join_wrapped prev s) i = Some 10%N ->
  nth_error (join_wrapped prev s) (S i) = Some c ->
  is_lower_az c = true ->
  (i = 0 /\ exists p, prev = Some p /\ one_of ".:;" p = true)
  \/ (exists j p, i = S j /\ nth_error (join_wrapped prev s) j = Some p
                  /\ one_of ".:;" p = true).
Proof.
  revert prev i. induction s as [|x t IH]; intros prev i H0 H1 Hc;
    [destruct i; discriminate|].
  destruct i as [|j].
  - left. split; [reflexivity|].
    cbn [join_wrapped nth_error] in H0, H1.
    apply join_wrapped_head_lower in H1; [|assumption].
    destruct t as [|y t']; [discriminate|]. cbn [nth_error] in H1. injection H1 as ->.
    rewrite Hc in H0.
    destruct (N.eqb x 10) eqn:Ex.
    + destruct prev as [p|]; cbn [negb andb] in H0; [|discriminate].
      destruct (one_of ".:;" p) eqn:Ep; cbn [negb andb] in H0; [|discriminate].
      now exists p.
    + cbn [andb] in H0. injection H0 as ->. discriminate.
  - right. cbn [join_wrapped] in H0, H1. cbn [nth_error] in H0, H1.
    destruct (IH (Some x) j H0 H1 Hc) as [[-> (p & [= <-] & Hp)] | (j' & p & -> & Hj & Hp)].
    + exists 0, x. split; [reflexivity|]. split; [|assumption].
      cbn [join_wrapped nth_error].
      destruct (N.eqb x 10) eqn:Ex; [|reflexivity].
      apply N.eqb_eq in Ex. subst. discriminate.
    + exists (S j'), p. split; [reflexivity|]. split; [|assumption].
      cbn [join_wrapped nth_error]. exact Hj.
Qed.

(** X12. After [dehyphenate] a line starts with a letter [a-z] only when the
    line before it ends in a full stop, a colon or a semicolon: every
    other such line break has become a space. *)
Theorem dehyphenate_joins_wrapped_lines (text : str) (i : nat) (c : char) :
  nth_error (dehyphenate text) i = Some 10%N ->
  nth_error (dehyphenate text) (S i) = Some c ->
  is_lower_az c = true ->
  exists j p, i = S j /\ nth_error (dehyphenate text) j = Some p
              /\ one_of ".:;" p = true.
Proof.
  intros H0 H1 Hc. unfold dehyphenate in *.
  destruct (join_wrapped_breaks _ _ _ H0 H1 Hc) as [[_ (p & Hp & _)] | H];
    [discriminate | exact H].
Qed.

Lemma dehyphenate_joins_wrapped_lines_witness :
  exists j p, 4 = S j
    /\ nth_error (dehyphenate (u "one." ++ NL ++ u "two" ++ NL ++ u "three")) j = Some p
    /\ one_of ".:;" p = true.
Proof.
  apply (@dehyphenate_joins_wrapped_lines
           (u "one." ++ NL ++ u "two" ++ NL ++ u "three") 4 116%N);
    vm_compute; reflexivity.
Defined.

(** ** Brands and section names *)

(** X13. When the name of the PDF mentions a brand, the text plays no part
    in the detection: any two texts give the same brand. *)
Theorem file_name_decides_brand (text text' pdf_name : str) :
  let n := lower pdf_name in
  contains (u "new yorker") n || contains (u "the_new_yorker") n
  || contains (u "atlantic") n || contains (u "harper") n = true ->
  detect_brand_from_text text pdf_name = detect_brand_from_text text' pdf_name.
Proof.
  intros n H. unfold detect_brand_from_text. fold n.
  destruct (contains (u "new yorker") n || contains (u "the_new_yorker") n);
    [reflexivity|].
  destruct (contains (u "atlantic") n); [reflexivity|].
  destruct (contains (u "harper") n); [reflexivity | discriminate H].
Qed.

Lemma file_name_decides_brand_witness :
  detect_brand_from_text (u "the new yorker") (u "Harpers-2024-11.pdf")
  = detect_brand_from_text (u "the atlantic") (u "Harpers-2024-11.pdf").
Proof.
  apply (@file_name_decides_brand (u "the new yorker") (u "the atlantic")
           (u "Harpers-2024-11.pdf")).
  vm_compute. reflexivity.
Defined.

(** The detection answers with one of the four brand identifiers. *)
Lemma detected_brand_is_a_brand (text pdf_name : str) :
  In (detect_brand_from_text text pdf_name)
    [u "newyorker"; u "atlantic"; u "harpers"; u "auto"].
Proof.
  unfold detect_brand_from_text.
  repeat match goal with
         | |- context [if ?b then _ else _] => destruct b
         end; simpl; tauto.
Qed.

(** X14. The unknown brand knows every section name that some brand knows:
    a name accepted under any brand is accepted under every identifier
    other than the three brands. *)
Theorem unknown_brand_knows_all_sections (name brand other : str) :
  is_known_section_name name brand = true ->
  str_eqb other (u "newyorker") = false ->
  str_eqb other (u "atlantic") = false ->
  str_eqb other (u "harpers") = false ->
  is_known_section_name name other = true.
Proof.
  intros H H1 H2 H3. apply known_in_some_list in H.
  unfold is_known_section_name. now rewrite H1, H2, H3.
Qed.

Lemma unknown_brand_knows_all_sections_witness :
  is_known_section_name (u "Letters to the editor") (u "auto") = true.
Proof.
  apply (@unknown_brand_knows_all_sections (u "Letters to the editor") (u "harpers"));
    vm_compute; reflexivity.
Defined.

(** *** Case and surrounding white space *)

Lemma isspace_range (c : char) : isspace c = true -> (c <= 32 \/ 133 <= c)%N.
Proof.
  unfold isspace, in_range. rewrite !orb_true_iff, !andb_true_iff, !N.leb_le, !N.eqb_eq. lia.
Qed.

Lemma isspace_upper (c : char) : isspace (upper_char c) = isspace c.
Proof.
  unfold upper_char. destruct (is_lower_az c) eqn:E; [|reflexivity].
  unfold is_lower_az, in_range in E. rewrite andb_true_iff, !N.leb_le in E.
  destruct (isspace c) eqn:E1; [apply isspace_range in E1; lia|].
  destruct (isspace (c - 32)%N) eqn:E2; [apply isspace_range in E2; lia | reflexivity].
Qed.

Lemma upper_char_idem (c : char) : upper_char (upper_char c) = upper_char c.
Proof.
  unfold upper_char. destruct (is_lower_az c) eqn:E; [|now rewrite E].
  unfold is_lower_az, in_range in *. rewrite andb_true_iff, !N.leb_le in E.
  destruct (N.leb 97 (c - 32)%N && N.leb (c - 32)%N 122) eqn:E2; [|reflexivity].
  rewrite andb_true_iff, !N.leb_le in E2. lia.
Qed.

Lemma upper_idem (s : str) : upper (upper s) = upper s.
Proof. unfold upper. rewrite map_map. apply map_ext. apply upper_char_idem. Qed.

Lemma lstrip_upper (s : str) : lstrip (upper s) = upper (lstrip s).
Proof.
  induction s as [|c t IH]; [reflexivity|]. simpl. rewrite isspace_upper.
  destruct (isspace c); [exact IH | reflexivity].
Qed.

Lemma rstrip_upper (s : str) : rstrip (upper s) = upper (rstrip s).
Proof.
  unfold rstrip. unfold upper at 1. rewrite <- map_rev. fold (upper (rev s)).
  rewrite lstrip_upper. unfold upper. now rewrite map_rev.
Qed.

Lemma strip_upper (s : str) : strip (upper s) = upper (strip s).
Proof. unfold strip. now rewrite lstrip_upper, rstrip_upper. Qed.

Lemma lstrip_idem (s : str) : lstrip (lstrip s) = lstrip s.
Proof.
  induction s as [|c t IH]; [reflexivity|]. simpl.
  destruct (isspace c) eqn:E; [exact IH|]. simpl. now rewrite E.
Qed.

Lemma lstrip_snoc (a : str) (x : char) :
  isspace x = false -> lstrip (a ++ [x]) = lstrip a ++ [x].
Proof.
  intros Hx. induction a as [|c t IH]; simpl; [now rewrite Hx|].
  destruct (isspace c); [exact IH | reflexivity].
Qed.

Lemma lstrip_rstrip (s : str) : lstrip (rstrip (lstrip s)) = rstrip (lstrip s).
Proof.
  assert (H : forall t, lstrip t = t -> lstrip (rstrip t) = rstrip t).
  { intros [|x t'] Ht; [reflexivity|].
    assert (Hx : isspace x = false).
    { simpl in Ht. destruct (isspace x) eqn:E; [|reflexivity].
      exfalso. assert (Hl : length (lstrip t') <= length t').
      { clear. induction t' as [|c t IH]; simpl; [lia|].
        destruct (isspace c); simpl; lia. }
      rewrite Ht in Hl. simpl in Hl. lia. }
    unfold rstrip. simpl rev. rewrite (lstrip_snoc _ _ Hx), rev_app_distr. simpl.
    now rewrite Hx. }
  apply H, lstrip_idem.
Qed.

Lemma strip_idem (s : str) : strip (strip s) = strip s.
Proof.
  unfold strip at 1 2. rewrite lstrip_rstrip. unfold rstrip.
  now rewrite rev_involutive, lstrip_idem.
Qed.

(** X15. A section header is recognized whatever the case of its letters and
    the white space around it: [try_section] gives the same answer for a
    line, for the line stripped and for the line in upper case. *)
Theorem try_section_ignores_case_and_margins (brand line : str) :
  try_section brand (strip line) = try_section brand line
  /\ try_section brand (upper line) = try_section brand line.
Proof.
  unfold try_section. now rewrite strip_idem, strip_upper, upper_idem.
Qed.

(** ** Acquisition and [main] *)

(** X16. The retry in raw mode never loses items.  When it returns, its
    result has at least as many items as the result it was given, and it
    is either that result or the parse of the raw-mode text. *)
Theorem raw_retry_never_loses_items
  (w : World) (pages : Z) (brand : str) (r r' : ParseResult) :
  raw_retry w pages brand r = Return r' ->
  item_count r <= item_count r'
  /\ (r' = r
      \/ exists out, pdftotext_extract w pages (u "raw") = Return out
                     /\ r' = parse (normalize (dehyphenate out)) brand).
Proof.
  unfold raw_retry.
  destruct (negb (str_eqb brand (u "harpers")) && (item_count r <? 4));
    [|intros [= <-]; split; [lia | now left]].
  destruct (pdftotext_extract w pages (u "raw")) as [out | e]; simpl.
  - destruct (item_count r <? item_count (parse (normalize (dehyphenate out)) brand)) eqn:E;
      intros [= <-].
    + apply Nat.ltb_lt in E. split; [lia|]. right. now exists out.
    + split; [lia | now left].
  - destruct (is_Exception e); [|discriminate]. intros [= <-]. split; [lia | now left].
Qed.

Lemma raw_retry_never_loses_items_witness :
  item_count (parse layout_text (u "newyorker"))
  <= item_count (parse raw_text (u "newyorker"))
  /\ (parse raw_text (u "newyorker") = parse layout_text (u "newyorker")
      \/ exists out, pdftotext_extract two_renderings_world 16 (u "raw") = Return out
                     /\ parse raw_text (u "newyorker")
                        = parse (normalize (dehyphenate out)) (u "newyorker")).
Proof.
  apply (@raw_retry_never_loses_items two_renderings_world 16%Z (u "newyorker")).
  vm_compute. reflexivity.
Defined.

Lemma probe_pages_range (w : World) (ps : list Z) :
  match probe_pages w ps with
  | Return p => In p ps \/ p = 3%Z
  | Raise e => is_Exception e = false
  end.
Proof.
  induction ps as [|p rest IH]; simpl; [now right|].
  destruct (pdftotext_extract_page w p (u "layout")) as [t | e].
  - match goal with |- context [if ?b then _ else _] => destruct b end.
    + left. now left.
    + destruct (probe_pages w rest); [|exact IH]. destruct IH; [left; now right | now right].
  - destruct (is_Exception e) eqn:E; [|exact E].
    destruct (probe_pages w rest); [|exact IH]. destruct IH; [left; now right | now right].
Qed.

(** X17. The page probe for Harper's answers with a page between 1 and 7,
    whatever the tool does on the seven pages it tries; a failing
    [pdftotext] run is passed over, and only an exit request ends the
    probe without an answer. *)
Theorem find_harpers_toc_page_in_range (w : World) :
  match find_harpers_toc_page w with
  | Return p => (1 <= p <= 7)%Z
  | Raise e => is_Exception e = false
  end.
Proof.
  unfold find_harpers_toc_page.
  pose proof (probe_pages_range w [1; 2; 3; 4; 5; 6; 7]%Z) as H.
  destruct (probe_pages w [1; 2; 3; 4; 5; 6; 7]%Z); [|exact H].
  simpl in H. lia.
Qed.

Section NoOcr.

Variables (w : World) (a : Args).

Hypothesis Hpdf : pdf_exists w = true.
Hypothesis Hocr : which w (u "pdftoppm") = false \/ which w (u "tesseract") = false.
Hypothesis Htool : forall flag first last e,
    run_pdftotext w flag first last = Raise e -> is_Exception e = true.

Lemma extract_fails_softly (pages : Z) (mode : str) (e : exn) :
  pdftotext_extract w pages mode = Raise e -> is_Exception e = true.
Proof.
  unfold pdftotext_extract. destruct (which w (u "pdftotext")); simpl.
  - apply Htool.
  - now intros [= <-].
Qed.

Lemma extract_page_fails_softly (page : Z) (mode : str) (e : exn) :
  pdftotext_extract_page w page mode = Raise e -> is_Exception e = true.
Proof.
  unfold pdftotext_extract_page. destruct (which w (u "pdftotext")); simpl.
  - apply Htool.
  - now intros [= <-].
Qed.

Lemma ocr_gives_nothing (n : Z) : ocr_first_pages w n = Return [].
Proof.
  unfold ocr_first_pages. destruct Hocr as [H | H]; rewrite H; simpl;
    [reflexivity | now rewrite orb_true_r].
Qed.

Lemma initial_text_returns : exists text, initial_text w a = Return text.
Proof.
  unfold initial_text.
  assert (H : exists t, try_except (pdftotext_extract w (arg_pages a) (u "layout"))
                          (fun _ => Return []) = Return t).
  { destruct (pdftotext_extract w (arg_pages a) (u "layout")) as [t | e] eqn:E;
      cbn [try_except]; [eauto|].
    rewrite (extract_fails_softly _ _ E). eauto. }
  destruct H as [t ->]. cbn [bind].
  destruct (looks_sparse t); [rewrite ocr_gives_nothing|]; cbn [bind]; eauto.
Qed.

Lemma append_page_returns (page : Z) (mode : str) (t : list str) :
  exists t', append_page w page mode t = Return t'.
Proof.
  unfold append_page.
  destruct (pdftotext_extract_page w page mode) as [out | e] eqn:E;
    cbn [bind try_except]; [eauto|].
  rewrite (extract_page_fails_softly _ _ E). eauto.
Qed.

Lemma probe_pages_returns (ps : list Z) : exists p, probe_pages w ps = Return p.
Proof.
  induction ps as [|p rest IH]; simpl; [eauto|].
  destruct (pdftotext_extract_page w p (u "layout")) as [t | e] eqn:E.
  - match goal with |- context [if ?b then _ else _] => destruct b end; eauto.
  - now rewrite (extract_page_fails_softly _ _ E).
Qed.

Lemma harpers_text_returns : exists text, harpers_text w = Return text.
Proof.
  unfold harpers_text, find_harpers_toc_page.
  destruct (probe_pages_returns [1; 2; 3; 4; 5; 6; 7]%Z) as [tp ->]. cbn [bind].
  destruct (append_page_returns tp (u "layout") []) as [t1 ->]. cbn [bind].
  destruct (append_page_returns (tp + 1) (u "layout") t1) as [t2 ->]. cbn [bind].
  destruct (append_page_returns tp (u "raw") t2) as [t3 ->]. cbn [bind].
  destruct (append_page_returns (tp + 1) (u "raw") t3) as [t4 ->]. cbn [bind].
  eauto.
Qed.

Lemma raw_retry_returns (pages : Z) (brand : str) (r : ParseResult) :
  exists r', raw_retry w pages brand r = Return r'.
Proof.
  unfold raw_retry.
  destruct (negb (str_eqb brand (u "harpers")) && (item_count r <? 4)); [|eauto].
  destruct (pdftotext_extract w pages (u "raw")) as [out | e] eqn:E;
    cbn [bind try_except]; [eauto|].
  rewrite (extract_fails_softly _ _ E). eauto.
Qed.

Lemma main_result_returns : exists r, main_result w a = Return r.
Proof.
  unfold main_result. rewrite Hpdf. cbn [negb].
  destruct initial_text_returns as [text ->]. cbn [bind].
  destruct (str_eqb (resolve_brand w a text) (u "harpers")).
  - destruct harpers_text_returns as [t ->]. cbn [bind]. apply raw_retry_returns.
  - cbn [bind]. apply raw_retry_returns.
Qed.

End NoOcr.

(** X18. Without the OCR tools on the path, a run on an existing PDF always
    ends with a result: whether [pdftotext] is missing or fails on any of
    its runs, first acquisition included, [main] goes on with what it has
    and raises nothing. *)
Theorem main_returns_without_ocr (w : World) (a : Args) :
  pdf_exists w = true ->
  which w (u "pdftoppm") = false \/ which w (u "tesseract") = false ->
  (forall flag first last e,
      run_pdftotext w flag first last = Raise e -> is_Exception e = true) ->
  exists r, main_result w a = Return r.
Proof. intros H1 H2 H3. now apply main_result_returns. Qed.

Lemma main_returns_without_ocr_witness :
  exists r, main_result two_renderings_world default_args = Return r.
Proof.
  apply main_returns_without_ocr.
  - reflexivity.
  - left. reflexivity.
  - intros flag first last e H. unfold two_renderings_world in H. simpl in H.
    discriminate H.
Defined.

(** ** A run without [pdftotext] *)

Lemma parse_empty (brand : str) : parse [] brand = (None, [], []).
Proof.
  unfold parse. destruct (str_eqb brand (u "harpers")) eqn:E; [reflexivity|].
  unfold slice_region. rewrite E. reflexivity.
Qed.

Lemma format_plain_empty (se im ic : bool) : format_plain se im ic None [] [] = NL.
Proof. reflexivity. Qed.

Section NoTools.

Variables (w : World) (a : Args).

Hypothesis Hpdf : pdf_exists w = true.
Hypothesis Hno : which w (u "pdftotext") = false.
Hypothesis Hocr : which w (u "pdftoppm") = false \/ which w (u "tesseract") = false.

Lemma append_page_nothing (page : Z) (mode : str) (t : list str) :
  append_page w page mode t = Return t.
Proof. unfold append_page, pdftotext_extract_page. now rewrite Hno. Qed.

Lemma probe_pages_fallback (ps : list Z) : probe_pages w ps = Return 3%Z.
Proof.
  induction ps as [|p rest IH]; [reflexivity|].
  cbn [probe_pages]. unfold pdftotext_extract_page. rewrite Hno. exact IH.
Qed.

Lemma harpers_text_nothing : harpers_text w = Return [].
Proof.
  unfold harpers_text, find_harpers_toc_page. rewrite probe_pages_fallback. cbn [bind].
  repeat (rewrite append_page_nothing; cbn [bind]). reflexivity.
Qed.

Lemma initial_text_nothing : initial_text w a = Return [].
Proof.
  unfold initial_text, pdftotext_extract. rewrite Hno. cbn [negb try_except is_Exception bind].
  change (looks_sparse []) with true. cbn iota.
  assert (H : forall n, ocr_first_pages w n = Return []).
  { intros n. unfold ocr_first_pages. destruct Hocr as [H | H]; rewrite H; simpl;
      [reflexivity | now rewrite orb_true_r]. }
  rewrite H. reflexivity.
Qed.

Lemma main_result_nothing : main_result w a = Return (None, [], []).
Proof.
  unfold main_result. rewrite Hpdf, initial_text_nothing. cbn [negb bind].
  destruct (str_eqb (resolve_brand w a []) (u "harpers")) eqn:E.
  - rewrite harpers_text_nothing. cbn [bind]. rewrite parse_empty.
    unfold raw_retry. now rewrite E.
  - cbn [bind]. rewrite parse_empty. unfold raw_retry, pdftotext_extract.
    rewrite E, Hno. reflexivity.
Qed.

End NoTools.

(** X19. When [pdftotext] and an OCR tool are missing, a run on an existing
    PDF does not fail: for every brand setting it ends with the empty
    result, no title, no sections and no items, and the plain output is a
    single newline. *)
Theorem missing_tools_give_empty_result (w : World) (a : Args) :
  pdf_exists w = true ->
  which w (u "pdftotext") = false ->
  which w (u "pdftoppm") = false \/ which w (u "tesseract") = false ->
  main_result w a = Return (None, [], [])
  /\ main_plain w a = Return NL.
Proof.
  intros H1 H2 H3. assert (H : main_result w a = Return (None, [], []))
    by now apply main_result_nothing.
  split; [exact H|]. unfold main_plain. rewrite H. cbn [bind]. now rewrite format_plain_empty.
Qed.

Lemma missing_tools_give_empty_result_witness :
  let w := mkWorld true (u "Harpers-2024-11.pdf") (fun _ => false)
             (fun _ _ _ => Raise OSError) (fun _ => Raise OSError) (fun _ => Raise OSError) in
  main_result w default_args = Return (None, [], [])
  /\ main_plain w default_args = Return NL.
Proof.
  intros w. apply missing_tools_give_empty_result; [reflexivity | reflexivity | now left].
Defined.

(** ** The plain-text formatter *)

Lemma section_order_keeps (its : list TocItem) (order : list str) (s : str) :
  In s order -> In s (section_order its order).
Proof.
  revert order; induction its as [|it t IH]; intros order H; simpl; [assumption|].
  apply IH. destruct (section it) as [s'|]; [|assumption].
  destruct (nonempty s' && negb (existsb (str_eqb s') order)); [|assumption].
  apply in_or_app. now left.
Qed.

Lemma section_order_has (its : list TocItem) (order : list str) (it : TocItem) (s : str) :
  In it its -> section it = Some s -> nonempty s = true ->
  In s (section_order its order).
Proof.
  revert order; induction its as [|x t IH]; intros order Hin Hs Hn; [destruct Hin|].
  simpl. destruct Hin as [-> | Hin]; [|now apply IH].
  rewrite Hs, Hn. cbn [andb].
  destruct (existsb (str_eqb s) order) eqn:E; cbn [negb]; apply section_order_keeps.
  - now apply key_test.
  - apply in_or_app. right. now left.
Qed.

Lemma section_order_nodup (its : list TocItem) (order : list str) :
  NoDup order -> NoDup (section_order its order).
Proof.
  revert order; induction its as [|x t IH]; intros order H; simpl; [assumption|].
  apply IH. destruct (section x) as [s|]; [|assumption].
  destruct (nonempty s); cbn [andb]; [|assumption].
  destruct (existsb (str_eqb s) order) eqn:E; cbn [negb]; [assumption|].
  apply NoDup_app; [assumption | repeat constructor; intros [] |].
  intros y Hy [<- | []]. apply key_test in Hy. congruence.
Qed.

Lemma detail_block_has_item (im ic : bool) (sp : dict) (its : list TocItem)
  (it : TocItem) (s : str) :
  In it its -> section it = Some s -> nonempty s = true -> hidden im ic s = false ->
  In (item_line it) (detail_block im ic sp its).
Proof.
  intros Hin Hs Hn Hh. unfold detail_block. apply in_flat_map.
  exists s. split; [now apply section_order_has with it|].
  rewrite Hh. apply in_or_app. right. apply in_or_app. left.
  apply in_map. apply (Permutation_in _ (Permutation_sym (stable_sort_perm _ _ _))).
  unfold by_sec. apply filter_In. split; [assumption|].
  unfold section_is. rewrite Hs. apply str_eqb_refl.
Qed.

Lemma section_order_from (its : list TocItem) (order : list str) (s : str) :
  In s (section_order its order) ->
  In s order \/ (nonempty s = true /\ exists it, In it its /\ section it = Some s).
Proof.
  revert order; induction its as [|x t IH]; intros order H; simpl in H; [now left|].
  apply IH in H as [H | (Hn & it & Hin & Hs)].
  - destruct (section x) as [s'|] eqn:Ex; [|now left].
    destruct (nonempty s') eqn:En; cbn [andb] in H; [|now left].
    destruct (existsb (str_eqb s') order); cbn [negb] in H; [now left|].
    apply in_app_or in H as [H | [<- | []]]; [now left|].
    right. split; [assumption|]. exists x. split; [now left | assumption].
  - right. split; [assumption|]. exists it. split; [now right | assumption].
Qed.

(** X20. The detailed part of the plain output takes up each section once:
    the order of its sections has no name twice, and a name is in it
    exactly when it is not empty and some item is filed under it. *)
Theorem section_order_is_the_item_sections (its : list TocItem) :
  NoDup (section_order its [])
  /\ forall s, In s (section_order its [])
               <-> (nonempty s = true /\ exists it, In it its /\ section it = Some s).
Proof.
  split; [apply section_order_nodup; constructor|].
  intros s. split.
  - intros H. apply section_order_from in H as [[] | H]. exact H.
  - intros (Hn & it & Hin & Hs). now apply section_order_has with it.
Qed.

Lemma not_suppressed_not_hidden (im ic : bool) (s : str) :
  suppressed (Some s) = false -> hidden im ic s = false.
Proof.
  unfold suppressed, hidden, THE_MAIL, CONTRIBUTORS. intros H.
  apply orb_false_iff in H as [Hc Hm]. now rewrite Hc, Hm.
Qed.

(** X21. The formatter loses no parsed item.  Whatever the toggles, every
    item of a result of [parse] has its line in the detailed part that
    [format_plain] builds from that result. *)
Theorem format_lists_every_parsed_item
  (text brand : str) (include_mail include_contributors : bool) (it : TocItem) :
  let sp := snd (fst (parse text brand)) in
  let its := snd (parse text brand) in
  In it its ->
  In (item_line it)
    (detail_block include_mail include_contributors sp
       (filter (keep_item include_mail include_contributors) its)).
Proof.
  intros sp its Hin. unfold its. rewrite parsed_items_all_kept.
  pose proof (parse_items_filed_in text brand) as H. rewrite Forall_forall in H.
  destruct (H it Hin) as (s & Hs & Hn & Hsup & _).
  apply detail_block_has_item with s; try assumption.
  now apply not_suppressed_not_hidden.
Qed.

Lemma format_lists_every_parsed_item_witness :
  let it := mkTocItem (Some 12%Z) (u "A Story") (Some (u "FICTION")) (Some (u "Jane Doe")) in
  In (item_line it)
    (detail_block false false (snd (fst (parse two_sections_text (u "newyorker"))))
       (filter (keep_item false false) (snd (parse two_sections_text (u "newyorker"))))).
Proof.
  intros it.
  apply (@format_lists_every_parsed_item two_sections_text (u "newyorker") false false it).
  vm_compute. now left.
Defined.

(** ** The scan only appends *)

Lemma enter_section_appends (name : str) (pg : option Z) (st : pstate) :
  exists more, keys (section_pages (enter_section name pg st))
               = keys (section_pages st) ++ more.
Proof.
  unfold enter_section. cbn [section_pages].
  assert (H : exists more, keys (dict_set (section_pages st) name pg)
                           = keys (section_pages st) ++ more).
  { rewrite keys_dict_set. destruct (existsb (str_eqb name) (keys (section_pages st)));
      [exists []; now rewrite app_nil_r | now exists [name]]. }
  destruct (dict_get (section_pages st) name) as [[q|]|]; try exact H.
  exists []. now rewrite app_nil_r.
Qed.

Lemma step_appends (brand : str) (lines : list str) (st : pstate) :
  (exists new, items (step brand lines st) = items st ++ new)
  /\ (exists more, keys (section_pages (step brand lines st))
                   = keys (section_pages st) ++ more).
Proof.
  destruct (step_in_cases brand lines st) as [name pg Hts | | s new cur' _ _ _ _ _];
    cbn [advance items section_pages].
  - split; [exists []; unfold enter_section; cbn [items]; now rewrite app_nil_r|].
    apply enter_section_appends.
  - split; exists []; now rewrite app_nil_r.
  - split; [now exists new | exists []; now rewrite app_nil_r].
Qed.

(** X22. The scan only appends.  Through any number of iterations the items
    found so far stay as they are at the head of the item list, and the
    section names recorded so far stay at the head of the section map in
    their order: a later line adds at the end or changes nothing. *)
Theorem scan_only_appends (brand : str) (lines : list str) (fuel : nat) (st : pstate) :
  (exists new, items (loop brand lines fuel st) = items st ++ new)
  /\ (exists more, keys (section_pages (loop brand lines fuel st))
                   = keys (section_pages st) ++ more).
Proof.
  revert st; induction fuel as [|f IH]; intros st; simpl.
  - split; exists []; now rewrite app_nil_r.
  - destruct (cur st <? length lines); [|split; exists []; now rewrite app_nil_r].
    destruct (IH (step brand lines st)) as [[n1 H1] [m1 H2]].
    destruct (step_appends brand lines st) as [[n0 H3] [m0 H4]].
    split.
    + exists (n0 ++ n1). now rewrite H1, H3, app_assoc.
    + exists (m0 ++ m1). now rewrite H2, H4, app_assoc.
Qed.

(** ** Harper's: one parse of the merged pages *)

(** X23. For Harper's the text acquired first serves the brand detection
    only.  The result of the run is the single parse of the merged
    contents pages, and the retry in raw mode is never made, however few
    items that parse has. *)
Theorem harpers_result_is_merged_parse (w : World) (a : Args) (first merged : str) :
  pdf_exists w = true ->
  initial_text w a = Return first ->
  resolve_brand w a first = u "harpers" ->
  harpers_text w = Return merged ->
  main_result w a = Return (parse merged (u "harpers")).
Proof.
  intros Hpdf Hfirst Hbrand Hmerged.
  unfold main_result. rewrite Hpdf, Hfirst. cbn [negb bind].
  rewrite Hbrand. change (str_eqb (u "harpers") (u "harpers")) with true.
  rewrite Hmerged. cbn [bind]. unfold raw_retry.
  change (str_eqb (u "harpers") (u "harpers")) with true. reflexivity.
Qed.

Lemma harpers_result_is_merged_parse_witness :
  let page := u "ESSAY" ++ NL ++ u "The Vanishing Act ......... 34 - Maria Lopez" in
  let w := mkWorld true (u "Harpers-2024-11.pdf") (fun _ => true)
             (fun _ _ _ => Return page) (fun _ => Return []) (fun _ => Return None) in
  main_result w default_args
  = Return (parse (join NL [page; page; page; page]) (u "harpers")).
Proof.
  intros page w.
  apply (@harpers_result_is_merged_parse w default_args page); vm_compute; reflexivity.
Defined.
